(** * student-manager: the /ping rate limiter, leaderboard and distinct-caller
    count of [cmd/student-manager/main.go], over a model of the Redis store.

    The handlers keep no local state: everything lives in Redis.  The model
    below has three layers.
    - [GoNum]: Go's machine numbers as the handlers use them ([int], [int64],
      [float64]) and the decimal text that go-redis and [strconv] exchange.
    - [Redis]: the store as one typed keyspace and the eight commands the
      handlers issue.
    - the handlers themselves, under the names they have in [main.go], in a
      small monad that threads the store, a schedule of connection failures
      and the log of the commands issued. *)

From Stdlib Require Import ZArith Lia Ascii String List Sorted.
From stdpp Require Import base tactics option numbers list sorting strings pretty gmap.

Local Open Scope Z_scope.

(** ** Go numbers *)

Module GoNum.

(** [int] and [int64] are 64 bits wide on the platforms the server runs
    on; arithmetic wraps around in two's complement. *)
Definition minInt64 : Z := - 2 ^ 63.
Definition maxInt64 : Z := 2 ^ 63 - 1.

Definition wrap64 (z : Z) : Z := (z + 2 ^ 63) mod 2 ^ 64 - 2 ^ 63.

Definition int_add (a b : Z) : Z := wrap64 (a + b).
Definition int_sub (a b : Z) : Z := wrap64 (a - b).

Definition in_int64 (z : Z) : Prop := minInt64 <= z <= maxInt64.
Definition in_int32 (z : Z) : Prop := - 2 ^ 31 <= z <= 2 ^ 31 - 1.

(** A [float64] that holds a whole number is represented by that number.
    Every value the handlers put in a [float64] is whole: a converted
    [int], zero, or a leaderboard score built from zero by adding one. *)

(** Round a whole number to the nearest one with a 53-bit significand,
    ties to even: the conversion [float64(i)] and the rounding step of a
    floating-point addition. *)
Definition float64_round (z : Z) : Z :=
  let a := Z.abs z in
  if a <=? 2 ^ 53 then z
  else
    let e := Z.log2 a - 52 in
    let q := a / 2 ^ e in
    let r := a mod 2 ^ e in
    let half := 2 ^ (e - 1) in
    let q' := if r <? half then q
              else if half <? r then q + 1
              else if Z.even q then q else q + 1 in
    Z.sgn z * (q' * 2 ^ e).

Definition float64_of_int (i : Z) : Z := float64_round i.

Definition float64_add (x y : Z) : Z := float64_round (x + y).

(** [math.Max] on whole, finite arguments. *)
Definition math_Max (x y : Z) : Z := Z.max x y.

(** [int(f)] for a whole [f]: exact when [f] fits, and the most negative
    [int] otherwise (what the amd64 conversion instruction produces; Go
    leaves that case to the implementation). *)
Definition int_of_float64 (f : Z) : Z :=
  if (minInt64 <=? f) && (f <=? maxInt64) then f else minInt64.

(** *** Decimal text *)

(** go-redis writes an [int] argument with [strconv.AppendInt(_, v, 10)]:
    the shortest decimal numeral, with a leading minus for negatives. *)
Definition Itoa (z : Z) : string := pretty z.

Inductive NumError := ErrSyntax | ErrRange.

Definition digit_of (c : ascii) : option Z :=
  let n := Z.of_N (N_of_ascii c) in
  if (48 <=? n) && (n <=? 57) then Some (n - 48) else None.

(** The digit loop of [strconv.ParseUint(s, 10, bitSize)]: it stops at the
    first byte that is not a decimal digit (syntax error, value 0) and at
    the first digit that takes the value past [maxVal] (range error, value
    [maxVal]), whichever comes first. *)
Fixpoint ParseUint_loop (maxVal : Z) (s : string) (n : Z) : Z * option NumError :=
  match s with
  | EmptyString => (n, None)
  | String c s' =>
      match digit_of c with
      | None => (0, Some ErrSyntax)
      | Some d =>
          if (2 ^ 64 - 1) / 10 + 1 <=? n then (maxVal, Some ErrRange)
          else
            let n1 := n * 10 + d in
            if maxVal <? n1 then (maxVal, Some ErrRange)
            else ParseUint_loop maxVal s' n1
      end
  end.

Definition ParseUint (s : string) (bitSize : Z) : Z * option NumError :=
  match s with
  | EmptyString => (0, Some ErrSyntax)
  | _ => ParseUint_loop (2 ^ bitSize - 1) s 0
  end.

(** [strconv.ParseInt(s, 10, bitSize)]: an optional sign, then
    [ParseUint]; a magnitude that does not fit [bitSize] bits yields the
    nearest bound together with a range error. *)
Definition ParseInt (s : string) (bitSize : Z) : Z * option NumError :=
  match s with
  | EmptyString => (0, Some ErrSyntax)
  | String c rest =>
      let neg := Ascii.eqb c "-" in
      let body := if Ascii.eqb c "+" || neg then rest else s in
      let '(un, err) := ParseUint body bitSize in
      match err with
      | Some ErrSyntax => (0, err)
      | _ =>
          let cutoff := 2 ^ (bitSize - 1) in
          if negb neg && (cutoff <=? un) then (cutoff - 1, Some ErrRange)
          else if neg && (cutoff <? un) then (- cutoff, Some ErrRange)
          else (if neg then - un else un, None)
      end
  end.

(** The nearest 32-bit value: what a range error of [ParseInt] leaves. *)
Definition clamp32 (z : Z) : Z := Z.max (- 2 ^ 31) (Z.min z (2 ^ 31 - 1)).

End GoNum.

(** ** The Redis store *)

Module Redis.

(** One keyspace; every key holds a value of one type.  A key whose
    time-to-live has run out is removed by the store itself, so an expired
    session is an absent key (the deadlines are in [expiring], below).  Sorted-set scores are doubles; the ones
    that occur here are whole (see [GoNum]).  The HyperLogLog sketch is
    kept as the exact set of the elements added to it: the store's
    estimate is then the exact count. *)
Inductive value :=
| VString (s : string)
| VHash (h : gmap string string)
| VZSet (z : gmap string Z)
| VHLL (m : gset string).

(** [Nil] is go-redis's [redis.Nil] (no such key or member), [WrongType]
    the store's WRONGTYPE reply, [ConnErr] a failed round trip. *)
Inductive error := Nil | WrongType | ConnErr.

Inductive command :=
  GET | HGETALL | HSET | ZSCORE | ZADD | ZREVRANGE | PFADD | PFCOUNT.

Definition is_write (c : command) : bool :=
  match c with HSET | ZADD | PFADD => true | _ => false end.

(** The store keeps a sketch inside a string value: the header [HYLL],
    then the registers, which move as elements are added.  A GET of the
    sketch key succeeds and returns that image.  The registers are below
    this model, which keeps the sketch as the set of its elements; in the
    image the elements, one after the other, stand for them, so that the
    image is never empty and follows the sketch.  Nothing below depends on
    the bytes after the header. *)
Definition hll_header : string := "HYLL".

Definition hll_image (m : gset string) : string :=
  hll_header +:+ String.concat "," (elements m).

Definition get (k : string) (d : gmap string value) : string * option error :=
  match d !! k with
  | None => ("", Some Nil)
  | Some (VString s) => (s, None)
  | Some (VHLL m) => (hll_image m, None)
  | Some _ => ("", Some WrongType)
  end.

Definition hgetall (k : string) (d : gmap string value)
  : gmap string string * option error :=
  match d !! k with
  | None => (∅, None)
  | Some (VHash h) => (h, None)
  | Some _ => (∅, Some WrongType)
  end.

Definition hset (k f v : string) (d : gmap string value)
  : option error * gmap string value :=
  match d !! k with
  | None => (None, <[k := VHash {[f := v]}]> d)
  | Some (VHash h) => (None, <[k := VHash (<[f := v]> h)]> d)
  | Some _ => (Some WrongType, d)
  end.

Definition zscore (k m : string) (d : gmap string value) : Z * option error :=
  match d !! k with
  | None => (0, Some Nil)
  | Some (VZSet z) =>
      match z !! m with Some s => (s, None) | None => (0, Some Nil) end
  | Some _ => (0, Some WrongType)
  end.

Definition zadd (k : string) (score : Z) (m : string) (d : gmap string value)
  : option error * gmap string value :=
  match d !! k with
  | None => (None, <[k := VZSet {[m := score]}]> d)
  | Some (VZSet z) => (None, <[k := VZSet (<[m := score]> z)]> d)
  | Some _ => (Some WrongType, d)
  end.

(** Reverse order of a sorted set: higher score first, and among equal
    scores the member that is later in byte order first. *)
Definition zrev_leb (a b : string * Z) : bool :=
  (b.2 <? a.2) || ((a.2 =? b.2) && String.leb b.1 a.1).

Definition zrev_le (a b : string * Z) : Prop := zrev_leb a b = true.

#[global] Instance zrev_le_dec (a b : string * Z) : Decision (zrev_le a b).
Proof. unfold zrev_le. apply _. Defined.

Definition zrev_list (z : gmap string Z) : list (string * Z) :=
  merge_sort zrev_le (map_to_list z).

(** Rank range [start..stop], both inclusive, negative ranks counting
    from the end: the index clean-up of the store's range commands. *)
Definition rank_range {A} (l : list A) (start stop : Z) : list A :=
  let llen := Z.of_nat (length l) in
  let start := if start <? 0 then llen + start else start in
  let stop := if stop <? 0 then llen + stop else stop in
  let start := if start <? 0 then 0 else start in
  if (stop <? start) || (llen <=? start) then []
  else
    let stop := if llen <=? stop then llen - 1 else stop in
    take (Z.to_nat (stop - start + 1)) (drop (Z.to_nat start) l).

Definition zrevrange (k : string) (start stop : Z) (d : gmap string value)
  : list (string * Z) * option error :=
  match d !! k with
  | None => ([], None)
  | Some (VZSet z) => (rank_range (zrev_list z) start stop, None)
  | Some _ => ([], Some WrongType)
  end.

Definition pfadd (k el : string) (d : gmap string value)
  : option error * gmap string value :=
  match d !! k with
  | None => (None, <[k := VHLL {[el]}]> d)
  | Some (VHLL m) => (None, <[k := VHLL ({[el]} ∪ m)]> d)
  | Some _ => (Some WrongType, d)
  end.

Definition pfcount (k : string) (d : gmap string value) : Z * option error :=
  match d !! k with
  | None => (0, None)
  | Some (VHLL m) => (Z.of_nat (size m), None)
  | Some _ => (0, Some WrongType)
  end.

Record event := Ev { ev_cmd : command; ev_key : string; ev_err : option error }.

End Redis.

(** ** The server's environment *)

(** What a handler runs against: the store, the schedule of round trips that
    will fail (one flag per command issued, [true] for a failure; an
    exhausted schedule means no failure), the iteration orders Go's runtime
    will pick for the maps it ranges over, and the log of the commands
    issued so far, newest first. *)
Record world := World {
  db : gmap string Redis.value;
  faults : list bool;
  orders : list bool;
  trace : list Redis.event
}.

(** A handler either runs to completion or panics with the error it was
    handed. *)
Inductive outcome (A : Type) :=
| Done (a : A)
| Panicked (e : Redis.error).
Arguments Done {A} a.
Arguments Panicked {A} e.

Definition M (A : Type) : Type := world → outcome A * world.

Definition ret {A} (a : A) : M A := λ w, (Done a, w).

Definition bind {A B} (m : M A) (k : A → M B) : M B :=
  λ w, match m w with
       | (Done a, w') => k a w'
       | (Panicked e, w') => (Panicked e, w')
       end.

Definition panic {A} (e : Redis.error) : M A := λ w, (Panicked e, w).

Notation "'let!' x ':=' m 'in' k" := (bind m (λ x, k))
  (at level 10, x pattern, m at level 200, k at level 200,
   format "'[v' 'let!'  x  ':='  m  'in' '/' k ']'").

(** One command, one round trip: a scheduled failure leaves the store as it
    is and hands back Go's zero value with the error. *)
Definition read_cmd {A} (c : Redis.command) (k : string) (zero : A)
    (sem : gmap string Redis.value → A * option Redis.error)
  : M (A * option Redis.error) :=
  λ w, match faults w with
       | true :: fs =>
           (Done (zero, Some Redis.ConnErr),
            World (db w) fs (orders w)
                  (Redis.Ev c k (Some Redis.ConnErr) :: trace w))
       | _ =>
           let r := sem (db w) in
           (Done r,
            World (db w) (tail (faults w)) (orders w)
                  (Redis.Ev c k r.2 :: trace w))
       end.

Definition write_cmd (c : Redis.command) (k : string)
    (sem : gmap string Redis.value → option Redis.error * gmap string Redis.value)
  : M (option Redis.error) :=
  λ w, match faults w with
       | true :: fs =>
           (Done (Some Redis.ConnErr),
            World (db w) fs (orders w)
                  (Redis.Ev c k (Some Redis.ConnErr) :: trace w))
       | _ =>
           let r := sem (db w) in
           (Done r.1,
            World r.2 (tail (faults w)) (orders w)
                  (Redis.Ev c k r.1 :: trace w))
       end.

(** The order in which a [range] visits a two-entry map. *)
Definition range_order : M bool :=
  λ w, match orders w with
       | [] => (Done true, w)
       | o :: os => (Done o, World (db w) (faults w) os (trace w))
       end.

(** The calls on [redisClient] that the handlers make. *)
Definition redisClient_Get (key : string) : M (string * option Redis.error) :=
  read_cmd Redis.GET key "" (Redis.get key).

Definition redisClient_HGetAll (key : string)
  : M (gmap string string * option Redis.error) :=
  read_cmd Redis.HGETALL key ∅ (Redis.hgetall key).

Definition redisClient_HSet (key field : string) (v : Z) : M (option Redis.error) :=
  write_cmd Redis.HSET key (Redis.hset key field (GoNum.Itoa v)).

Definition redisClient_ZScore (key member : string) : M (Z * option Redis.error) :=
  read_cmd Redis.ZSCORE key 0 (Redis.zscore key member).

Definition redisClient_ZAdd (key : string) (score : Z) (member : string)
  : M (option Redis.error) :=
  write_cmd Redis.ZADD key (Redis.zadd key score member).

Definition redisClient_ZRevRangeWithScores (key : string) (start stop : Z)
  : M (list (string * Z) * option Redis.error) :=
  read_cmd Redis.ZREVRANGE key [] (Redis.zrevrange key start stop).

Definition redisClient_PFAdd (key el : string) : M (option Redis.error) :=
  write_cmd Redis.PFADD key (Redis.pfadd key el).

Definition redisClient_PFCount (key : string) : M (Z * option Redis.error) :=
  read_cmd Redis.PFCOUNT key 0 (Redis.pfcount key).

(** ** The handlers of [main.go] *)

Definition RedisTopPingKey : string := "top_pings".
Definition RedisHyperLogLogKey : string := "hyperloglog".
Definition MaxPingPerUser : Z := 2.
Definition PingRateLimit : Z := 60.
Definition TopPingCount : Z := 10.

(** [setPingInfo] ranges over the two-entry map [pingRecord] and stops at
    the first HSET that fails. *)
Fixpoint hset_each (pingID : string) (kvs : list (string * Z))
  : M (option Redis.error) :=
  match kvs with
  | [] => ret None
  | (k, v) :: rest =>
      let! err := redisClient_HSet pingID k v in
      match err with
      | Some e => ret (Some e)
      | None => hset_each pingID rest
      end
  end.

Definition setPingInfo (pingID : string) (blockTime currPingTime : Z)
  : M (option Redis.error) :=
  let! blockFirst := range_order in
  let pingRecord :=
    if blockFirst
    then [("blockTime", blockTime); ("lastPingTime", currPingTime)]
    else [("lastPingTime", currPingTime); ("blockTime", blockTime)] in
  hset_each pingID pingRecord.

(** Go's map index: the zero value for a key that is not there. *)
Definition field (m : gmap string string) (k : string) : string :=
  default "" (m !! k).

(** [canMakePing]; [now] is the reading of [time.Now().Unix()] that the
    call takes (one per path). *)
Definition canMakePing (username : string) (now : Z) : M bool :=
  let pingID := "ping-" +:+ username in
  let! (pingInfo, _) := redisClient_HGetAll pingID in
  if decide (size pingInfo = 0%nat) then
    let! err := setPingInfo pingID 0 now in
    match err with
    | Some e => panic e
    | None => ret true
    end
  else
    let currPingTime := now in
    let blockTime := (GoNum.ParseInt (field pingInfo "blockTime") 32).1 in
    let lastPingTime := (GoNum.ParseInt (field pingInfo "lastPingTime") 32).1 in
    if blockTime <? GoNum.int_sub currPingTime lastPingTime then
      let newBlockTime :=
        GoNum.math_Max (GoNum.float64_of_int 0)
          (GoNum.float64_of_int
             (GoNum.int_sub (GoNum.int_add lastPingTime PingRateLimit)
                            currPingTime)) in
      let! err := setPingInfo pingID (GoNum.int_of_float64 newBlockTime) currPingTime in
      match err with
      | Some e => panic e
      | None => ret true
      end
    else ret false.

Definition increaseCounter (username : string) : M unit :=
  let! (totalPing, _) := redisClient_ZScore RedisTopPingKey username in
  let! err := redisClient_ZAdd RedisTopPingKey (GoNum.float64_add totalPing 1) username in
  match err with
  | Some e => panic e
  | None =>
      let! err := redisClient_PFAdd RedisHyperLogLogKey username in
      match err with
      | Some e => panic e
      | None => ret tt
      end
  end.

(** What a handler writes back. *)
Inductive reply :=
| Unauthorized
| RateLimitExceeded
| PingSucceeded
| TopUsers (topUsers : list (string * Z))
| TopFailed
| NumberOfUsers (count : Z).

Definition status (r : reply) : Z :=
  match r with
  | Unauthorized => 401
  | RateLimitExceeded => 429
  | TopFailed => 500
  | PingSucceeded | TopUsers _ | NumberOfUsers _ => 200
  end.

(** The head of [handlePing]: the session cookie is looked up in the store.
    [cookie] is what [c.Cookie] hands back, [None] when it reports an
    error.  The result is the caller's name, or [None] where the handler
    answers 401. *)
Definition sessionGate (cookie : option string) : M (option string) :=
  match cookie with
  | None => ret None
  | Some sessionID =>
      let! (username, err) := redisClient_Get sessionID in
      match err with
      | Some _ => ret None
      | None =>
          if String.eqb sessionID "" || String.eqb username ""
          then ret None
          else ret (Some username)
      end
  end.

(** [handlePing] holds the process-wide mutex from start to end, so the
    handlers of one process run one after the other.  [pingAs] is what it
    does once the caller is known: the rate check, then the count. *)
Definition pingAs (username : string) (now : Z) : M reply :=
  let! ok := canMakePing username now in
  if ok then
    let! _ := increaseCounter username in
    ret PingSucceeded
  else ret RateLimitExceeded.

Definition handlePing (cookie : option string) (now : Z) : M reply :=
  let! who := sessionGate cookie in
  match who with
  | None => ret Unauthorized
  | Some username => pingAs username now
  end.

Definition handleTop : M reply :=
  let! (topUsers, err) := redisClient_ZRevRangeWithScores RedisTopPingKey 0 (TopPingCount - 1) in
  match err with
  | Some _ => ret TopFailed
  | None => ret (TopUsers topUsers)
  end.

Definition handleCount : M reply :=
  let! (count, err) := redisClient_PFCount RedisHyperLogLogKey in
  match err with
  | Some e => panic e
  | None => ret (NumberOfUsers count)
  end.

(** ** Vocabulary of the statements *)

Definition pingID (username : string) : string := "ping-" +:+ username.

(** No failure is scheduled: the store answers every command. *)
Definition quiet (w : world) : Prop := faults w = [].

(** A clock reading far inside the range of [int64], where neither the
    [int] arithmetic of [canMakePing] wraps nor its [float64] rounds. *)
Definition epoch (now : Z) : Prop := - 2 ^ 52 <= now <= 2 ^ 52.

(** The commands issued between two worlds, newest first. *)
Definition issued (w w' : world) (evs : list Redis.event) : Prop :=
  trace w' = evs ++ trace w.

Definition no_writes (evs : list Redis.event) : Prop :=
  Forall (λ ev, Redis.is_write (Redis.ev_cmd ev) = false) evs.

(** A write command that the store did not carry out. *)
Definition failed_write (ev : Redis.event) (e : Redis.error) : Prop :=
  Redis.is_write (Redis.ev_cmd ev) = true ∧ Redis.ev_err ev = Some e.

Definition write_ok (ev : Redis.event) : Prop :=
  Redis.is_write (Redis.ev_cmd ev) = true → Redis.ev_err ev = None.

(** A handler that panics exactly when the last command it issued is a
    write that failed, with that write's error: every write before the last
    command went through, so a failed write is where the handler stopped. *)
Definition panics_on_failed_write {A} (o : outcome A) (evs : list Redis.event)
  : Prop :=
  (∀ e, o = Panicked e ↔ ∃ ev rest, evs = ev :: rest ∧ failed_write ev e)
  ∧ Forall write_ok (tail evs).

(** The rate state of a caller as [canMakePing] reads it. *)
Definition rateHash (d : gmap string Redis.value) (username : string)
  : gmap string string :=
  (Redis.hgetall (pingID username) d).1.

Definition blockTime_of (h : gmap string string) : Z :=
  (GoNum.ParseInt (field h "blockTime") 32).1.

Definition lastPingTime_of (h : gmap string string) : Z :=
  (GoNum.ParseInt (field h "lastPingTime") 32).1.

(** The record that [setPingInfo] leaves in a hash. *)
Definition pingRecord (blockTime currPingTime : Z) (h : gmap string string)
  : gmap string string :=
  <["blockTime" := GoNum.Itoa blockTime]>
    (<["lastPingTime" := GoNum.Itoa currPingTime]> h).

(** The rate state is in order at clock reading [now]: the block period is
    within the window and the last call is not in the future. *)
Definition rate_ok (now : Z) (h : gmap string string) : Prop :=
  0 <= blockTime_of h <= PingRateLimit ∧ lastPingTime_of h <= now.

(** Clock readings that never go back, from [t0] on, and stay plausible. *)
Fixpoint ascending (t0 : Z) (times : list Z) : Prop :=
  match times with
  | [] => True
  | t :: rest => t0 <= t <= 2 ^ 52 ∧ ascending t rest
  end.

(** The rate limiter called for one caller at each of [times] in turn. *)
Fixpoint acquireAll (username : string) (times : list Z) (w : world) : world :=
  match times with
  | [] => w
  | t :: rest => acquireAll username rest (canMakePing username t w).2
  end.

(** A caller's leaderboard score, 0 for a caller who is not on the board. *)
Definition score (d : gmap string Redis.value) (username : string) : Z :=
  (Redis.zscore RedisTopPingKey username d).1.

(** The sessions of the store: the keys that hold a string written by SET,
    which only [handleLogin] issues, each bound to the caller identity
    written under it.  The empty string is Go's zero value and names
    nobody.  The rate states, the leaderboard and the sketch are not
    sessions, whatever a GET of their keys returns. *)
Definition session (d : gmap string Redis.value) (sessionID : string)
  : option string :=
  match d !! sessionID with
  | Some (Redis.VString username) =>
      if String.eqb username "" then None else Some username
  | _ => None
  end.

(** The gate as the specification words it: a missing or empty token is
    unauthorized, a token that is not among the sessions is unauthorized,
    a token that is yields its caller. *)
Definition validate (d : gmap string Redis.value) (token : option string)
  : option string :=
  match token with
  | None => None
  | Some sessionID =>
      if String.eqb sessionID "" then None else session d sessionID
  end.

(** What a GET of a key hands to the gate of [handlePing]: the string it
    returns, when it returns one and that one is not empty. *)
Definition nameUnder (d : gmap string Redis.value) (sessionID : string)
  : option string :=
  match Redis.get sessionID d with
  | (username, None) => if String.eqb username "" then None else Some username
  | (_, Some _) => None
  end.

(** Whom the gate of [handlePing] lets through when the store answers: the
    name read under the cookie, when there is a cookie and it is not empty. *)
Definition letThrough (d : gmap string Redis.value) (cookie : option string)
  : option string :=
  match cookie with
  | None => None
  | Some sessionID =>
      if String.eqb sessionID "" then None else nameUnder d sessionID
  end.

(** The key holds a sketch. *)
Definition holds_sketch (d : gmap string Redis.value) (key : string) : bool :=
  match d !! key with
  | Some (Redis.VHLL _) => true
  | _ => false
  end.

(** The leaderboard as a map from caller to score. *)
Definition board (d : gmap string Redis.value) : gmap string Z :=
  match d !! RedisTopPingKey with
  | Some (Redis.VZSet z) => z
  | _ => ∅
  end.

(** The callers recorded in the sketch. *)
Definition sketch (d : gmap string Redis.value) : gset string :=
  match d !! RedisHyperLogLogKey with
  | Some (Redis.VHLL m) => m
  | _ => ∅
  end.

(** Between two worlds the store changed at most under [key], and a quiet
    world stayed quiet. *)
Definition only_at (key : string) (w w' : world) : Prop :=
  (∀ k, k ≠ key → db w' !! k = db w !! k) ∧ (quiet w → quiet w').

(** The sketch key is free or holds a sketch; likewise the leaderboard key. *)
Definition sketch_ok (d : gmap string Redis.value) : Prop :=
  match d !! RedisHyperLogLogKey with
  | None | Some (Redis.VHLL _) => True
  | Some _ => False
  end.

Definition board_ok (d : gmap string Redis.value) : Prop :=
  match d !! RedisTopPingKey with
  | None | Some (Redis.VZSet _) => True
  | Some _ => False
  end.

#[global] Instance sketch_ok_dec d : Decision (sketch_ok d).
Proof. unfold sketch_ok. destruct (d !! _) as [[] |]; apply _. Defined.

#[global] Instance board_ok_dec d : Decision (board_ok d).
Proof. unfold board_ok. destruct (d !! _) as [[] |]; apply _. Defined.

(** A sequence of pings, each by a known caller at a clock reading; a
    handler that panics is answered by the router's recovery and the server
    goes on. *)
Fixpoint serve (calls : list (string * Z)) (w : world)
  : list (outcome reply) * world :=
  match calls with
  | [] => ([], w)
  | (username, now) :: rest =>
      let '(o, w1) := pingAs username now w in
      let '(os, w2) := serve rest w1 in
      (o :: os, w2)
  end.

(** How many of the calls were [username]'s and were let through. *)
Fixpoint allowed (username : string) (calls : list (string * Z))
    (outs : list (outcome reply)) : Z :=
  match calls, outs with
  | (u, _) :: calls', o :: outs' =>
      (match o with
       | Done PingSucceeded => if String.eqb u username then 1 else 0
       | _ => 0
       end) + allowed username calls' outs'
  | _, _ => 0
  end.

(** The usage recorder run for each caller of a list in turn. *)
Fixpoint recordAll (usernames : list string) : M unit :=
  match usernames with
  | [] => ret tt
  | u :: rest => let! _ := increaseCounter u in recordAll rest
  end.

(** Non-increasing by score. *)
Definition by_score_desc (a b : string * Z) : Prop := b.2 <= a.2.

(** ** Keys that expire, and the login handler *)

(** [RedisExpirationTime] is 300 s; go-redis sends a whole number of
    seconds as [SET key value EX 300]. *)
Definition RedisExpirationTime : Z := 300.

(** The store with its deadlines.  A SET with an expiry gives its key a
    deadline on the store's own clock, which counts milliseconds; HSET,
    ZADD and PFADD leave the deadlines alone, and a key they create has
    none.  Once the clock is past the deadline of a key, the key is gone
    and its deadline with it.  The store's clock is not the handlers'
    [time.Now]. *)
Record expiring := Expiring {
  content : gmap string Redis.value;
  deadline : gmap string Z
}.

Definition alive (clock : Z) (s : expiring) (key : string) : bool :=
  match deadline s !! key with
  | Some t => clock <=? t
  | None => true
  end.

(** What the store holds at a reading of its clock: the keyspace that the
    commands of a handler run against. *)
Definition live (clock : Z) (s : expiring) : gmap string Redis.value :=
  filter (λ kv, alive clock s kv.1 = true) (content s).

(** The store after a handler that started at [clock] on [live clock s]
    and left the keyspace [d]: the deadlines are those of the keys that
    were there. *)
Definition settle (clock : Z) (s : expiring) (d : gmap string Redis.value)
  : expiring :=
  Expiring d (filter (λ kt, clock <= kt.2) (deadline s)).

(** SET with an expiry, at a reading of the store's clock: the key holds
    the string, whatever it held before, and expires [seconds] later. *)
Definition redisSet (key value : string) (seconds : Z) (clock : Z)
    (s : expiring) : expiring :=
  Expiring (<[key := Redis.VString value]> (content s))
           (<[key := clock + 1000 * seconds]> (deadline s)).

(** What [handleLogin] writes back: 401, 500 with the store's error, or 200
    with the session cookie. *)
Inductive loginReply :=
| WrongCredentials
| LoginFailed (e : Redis.error)
| LoggedIn (sessionID : string).

(** [handleLogin] over the store.  What it takes from outside is given:
    [authID] is the id that the query left in [auth] (0 when no row
    matched), [sessionID] the uuid drawn, [setFails] whether the round trip
    of the SET fails, [clock] the reading of the store's clock when the
    SET arrives. *)
Definition handleLogin (authID : Z) (username sessionID : string)
    (setFails : bool) (clock : Z) (s : expiring) : loginReply * expiring :=
  if authID =? 0 then (WrongCredentials, s)
  else if setFails then (LoginFailed Redis.ConnErr, s)
  else (LoggedIn sessionID,
        redisSet sessionID username RedisExpirationTime clock s).

(** ** More vocabulary *)

(** The type of value a key holds. *)
Inductive kind := KString | KHash | KZSet | KHLL.

Definition kind_of (v : Redis.value) : kind :=
  match v with
  | Redis.VString _ => KString
  | Redis.VHash _ => KHash
  | Redis.VZSet _ => KZSet
  | Redis.VHLL _ => KHLL
  end.

(** From [d] to [d'] no key was removed, none changed its type, and no
    string written by SET changed.  (The sketch, which the store keeps
    inside a string as well, is of its own type here.) *)
Definition keeps (d d' : gmap string Redis.value) : Prop :=
  ∀ k v, d !! k = Some v →
    ∃ v', d' !! k = Some v' ∧ kind_of v' = kind_of v
          ∧ (kind_of v = KString → v' = v).

(** From [w] to [w'] nothing moved but what a ping of [username] may move:
    keys other than the caller's rate state, the leaderboard and the sketch
    are as they were, other callers' scores are as they were, and the
    sketch lost nobody. *)
Definition apart_from (username : string) (w w' : world) : Prop :=
  (∀ k, k ≠ pingID username → k ≠ RedisTopPingKey → k ≠ RedisHyperLogLogKey →
        db w' !! k = db w !! k)
  ∧ (∀ u, u ≠ username → score (db w') u = score (db w) u)
  ∧ (∀ u, u ≠ username → rateHash (db w') u = rateHash (db w) u)
  ∧ sketch (db w) ⊆ sketch (db w').

(** From [d] to [d'] no string written by SET came up. *)
Definition no_new_string (d d' : gmap string Redis.value) : Prop :=
  ∀ k u, d' !! k = Some (Redis.VString u) → d !! k = Some (Redis.VString u).

(** A property of the step from the world a computation starts in to the
    world it ends in, whatever the outcome. *)
Definition preserves {A} (P : world → world → Prop) (m : M A) : Prop :=
  ∀ w o w', m w = (o, w') → P w w'.

(** ** Worlds to try things on *)

(** An empty, quiet store. *)
Definition freshWorld : world := World ∅ [] [] [].

(** A quiet store in which [username] has the given rate state. *)
Definition rateRecord (b l : Z) : gmap string string :=
  {[ "blockTime" := GoNum.Itoa b; "lastPingTime" := GoNum.Itoa l ]}.

Definition ratedWorld (username : string) (b l : Z) : world :=
  World {[ pingID username := Redis.VHash (rateRecord b l) ]} [] [] [].

(** A store that fails the round trips listed in [fs]. *)
Definition faultyWorld (d : gmap string Redis.value) (fs : list bool) : world :=
  World d fs [] [].

(** The quiet store after one login and one ping: [tok] is alice's
    session, and alice has pinged once, at 100. *)
Definition pingedWorld : world :=
  World (db (handlePing (Some "tok") 100
               (World {[ "tok" := Redis.VString "alice" ]} [] [] [])).2)
        [] [] [].

(** ** Small checks of the model *)

Example ParseInt_42 : GoNum.ParseInt "42" 32 = (42, None).
Proof. reflexivity. Qed.
Example ParseInt_neg : GoNum.ParseInt "-17" 32 = (-17, None).
Proof. reflexivity. Qed.
Example ParseInt_empty : GoNum.ParseInt "" 32 = (0, Some GoNum.ErrSyntax).
Proof. reflexivity. Qed.
Example ParseInt_junk : GoNum.ParseInt "12a" 32 = (0, Some GoNum.ErrSyntax).
Proof. reflexivity. Qed.
Example ParseInt_clamp : GoNum.ParseInt "3000000000" 32 = (2147483647, Some GoNum.ErrRange).
Proof. reflexivity. Qed.
Example Itoa_neg : GoNum.Itoa (-305) = "-305".
Proof. reflexivity. Qed.
Example float64_round_tie : GoNum.float64_round (2 ^ 53 + 1) = 2 ^ 53.
Proof. reflexivity. Qed.
Example float64_round_up : GoNum.float64_round (2 ^ 53 + 3) = 2 ^ 53 + 4.
Proof. reflexivity. Qed.

(** ** Numbers and numerals *)

Section numeric_facts.
Import GoNum.

Lemma wrap64_id z : in_int64 z → wrap64 z = z.
Proof.
  unfold in_int64, minInt64, maxInt64, wrap64. intros Hz.
  rewrite Z.mod_small by lia. lia.
Qed.

Lemma float64_round_small z : Z.abs z <= 2 ^ 53 → float64_round z = z.
Proof.
  intros Hz. unfold float64_round.
  destruct (Z.leb_spec (Z.abs z) (2 ^ 53)); [done | lia].
Qed.

Lemma int_of_float64_id f : in_int64 f → int_of_float64 f = f.
Proof.
  unfold in_int64, int_of_float64. intros [H1 H2].
  apply Z.leb_le in H1. apply Z.leb_le in H2. by rewrite H1, H2.
Qed.

Lemma digit_of_pretty_char r :
  (r < 10)%N → digit_of (pretty_N_char r) = Some (Z.of_N r).
Proof.
  intros Hr.
  assert (r = 0 ∨ r = 1 ∨ r = 2 ∨ r = 3 ∨ r = 4 ∨ r = 5 ∨ r = 6 ∨ r = 7
          ∨ r = 8 ∨ r = 9)%N as Hc by lia.
  repeat destruct Hc as [-> | Hc]; try subst r; reflexivity.
Qed.

(** Reading back the digits that [pretty_N_go] writes: the loop either
    arrives at the number or stops at the range check. *)
Lemma ParseUint_loop_digits maxVal x :
  (0 < x)%N → maxVal < (2 ^ 64 - 1) / 10 + 1 →
  ∃ k, 0 < k ∧ ∀ s n, 0 <= n <= maxVal →
    ParseUint_loop maxVal (pretty_N_go x s) n =
      if n * k + Z.of_N x <=? maxVal
      then ParseUint_loop maxVal s (n * k + Z.of_N x)
      else (maxVal, Some ErrRange).
Proof.
  intros Hx Hmax. revert Hx.
  induction (N.lt_wf_0 x) as [x _ IH]. intros Hx.
  assert (Hdm : x = (10 * (x `div` 10) + x `mod` 10)%N)
    by (apply N.div_mod; lia).
  assert (Hr : (x `mod` 10 < 10)%N) by (apply N.mod_lt; lia).
  destruct (decide (x `div` 10 = 0)%N) as [Hq | Hq].
  - exists 10. split; [lia |]. intros s n Hn.
    rewrite pretty_N_go_step, Hq, pretty_N_go_0 by done. simpl.
    rewrite digit_of_pretty_char by done.
    destruct (Z.leb_spec ((2 ^ 64 - 1) `div` 10 + 1) n); [lia |].
    replace (Z.of_N (x `mod` 10)) with (Z.of_N x) by lia.
    destruct (Z.ltb_spec maxVal (n * 10 + Z.of_N x)),
             (Z.leb_spec (n * 10 + Z.of_N x) maxVal); (done || lia).
  - destruct (IH (x `div` 10)%N) as (k & Hk & IHk).
    { apply N.div_lt; lia. }
    { lia. }
    exists (k * 10). split; [lia |]. intros s n Hn.
    rewrite pretty_N_go_step by done. rewrite IHk by done.
    assert (Hx' : Z.of_N x = 10 * Z.of_N (x `div` 10) + Z.of_N (x `mod` 10)) by lia.
    destruct (Z.leb_spec (n * k + Z.of_N (x `div` 10)) maxVal).
    + simpl. rewrite digit_of_pretty_char by done.
      destruct (Z.leb_spec ((2 ^ 64 - 1) `div` 10 + 1)
                           (n * k + Z.of_N (x `div` 10))); [lia |].
      replace ((n * k + Z.of_N (x `div` 10)) * 10 + Z.of_N (x `mod` 10))
        with (n * (k * 10) + Z.of_N x) by lia.
      destruct (Z.ltb_spec maxVal (n * (k * 10) + Z.of_N x)),
               (Z.leb_spec (n * (k * 10) + Z.of_N x) maxVal); (done || lia).
    + assert (0 <= n * k) by nia.
      destruct (Z.leb_spec (n * (k * 10) + Z.of_N x) maxVal); [exfalso | done].
      pose proof (N2Z.is_nonneg (x `div` 10)).
      pose proof (N2Z.is_nonneg (x `mod` 10)). lia.
Qed.

Lemma pretty_N_go_head x s :
  (0 < x)%N →
  ∃ c rest, pretty_N_go x s = String c rest ∧ is_Some (digit_of c).
Proof.
  revert s. induction (N.lt_wf_0 x) as [x _ IH]. intros s Hx.
  rewrite pretty_N_go_step by done.
  destruct (decide (x `div` 10 = 0)%N) as [Hq | Hq].
  - rewrite Hq, pretty_N_go_0. eexists _, _. split; [done |].
    rewrite digit_of_pretty_char; [done | apply N.mod_lt; lia].
  - apply IH; [apply N.div_lt; lia | by apply N.neq_0_lt_0].
Qed.

Lemma ParseUint_digits x :
  (0 < x)%N →
  ParseUint (pretty_N_go x "") 32 =
    if Z.of_N x <=? 2 ^ 32 - 1 then (Z.of_N x, None)
    else (2 ^ 32 - 1, Some ErrRange).
Proof.
  intros Hx. destruct (pretty_N_go_head x "" Hx) as (c & rest & Hs & _).
  unfold ParseUint. rewrite Hs, <- Hs.
  destruct (ParseUint_loop_digits (2 ^ 32 - 1) x Hx) as (k & _ & Hk); [done |].
  rewrite Hk by done. simpl. done.
Qed.

(** What [ParseInt] makes of a numeral that [Itoa] wrote. *)
Lemma ParseInt_Itoa z :
  ParseInt (Itoa z) 32 =
    (clamp32 z, if decide (in_int32 z) then None else Some ErrRange).
Proof.
  unfold Itoa, pretty, pretty_Z, in_int32, clamp32.
  destruct z as [| p | p].
  - reflexivity.
  - unfold pretty, pretty_positive, pretty, pretty_N.
    destruct (decide (N.pos p = 0%N)) as [| _]; [done |].
    assert (Hp : (0 < N.pos p)%N) by lia.
    destruct (pretty_N_go_head _ "" Hp) as (c & rest & Hs & Hc).
    pose proof (ParseUint_digits _ Hp) as HU. rewrite Hs in *.
    unfold ParseInt.
    assert (Ascii.eqb c "-" = false) as ->.
    { apply Ascii.eqb_neq. intros ->. by destruct Hc. }
    assert (Ascii.eqb c "+" = false) as ->.
    { apply Ascii.eqb_neq. intros ->. by destruct Hc. }
    simpl orb. cbv iota. rewrite HU. simpl Z.of_N.
    destruct (Z.leb_spec (Z.pos p) (2 ^ 32 - 1)); simpl negb; simpl andb.
    + destruct (Z.leb_spec (2 ^ (32 - 1)) (Z.pos p)).
      * case_decide; [lia |]. f_equal. lia.
      * case_decide; [| lia]. f_equal. cbv beta iota. lia.
    + change (2 ^ (32 - 1) <=? 2 ^ 32 - 1) with true. cbv iota.
      case_decide; [lia |]. f_equal. lia.
  - unfold pretty, pretty_positive, pretty, pretty_N.
    destruct (decide (N.pos p = 0%N)) as [| _]; [done |].
    assert (Hp : (0 < N.pos p)%N) by lia.
    pose proof (ParseUint_digits _ Hp) as HU.
    change ("-" +:+ pretty_N_go (N.pos p) "")
      with (String "-"%char (pretty_N_go (N.pos p) "")).
    unfold ParseInt. cbv iota.
    change (Ascii.eqb "-" "-") with true. rewrite orb_true_r. cbv iota.
    rewrite HU. simpl Z.of_N. simpl negb. simpl andb.
    destruct (Z.leb_spec (Z.pos p) (2 ^ 32 - 1)).
    + destruct (Z.ltb_spec (2 ^ (32 - 1)) (Z.pos p)).
      * case_decide; [lia |]. f_equal. lia.
      * case_decide; [| lia]. f_equal. lia.
    + change (2 ^ (32 - 1) <? 2 ^ 32 - 1) with true. cbv iota.
      case_decide; [lia |]. f_equal. lia.
Qed.

Lemma ParseInt_Itoa_fits z : in_int32 z → ParseInt (Itoa z) 32 = (z, None).
Proof.
  intros Hz. rewrite ParseInt_Itoa. rewrite decide_True by done.
  f_equal. unfold clamp32, in_int32 in *. lia.
Qed.
End numeric_facts.

(** ** The store answers: commands in a quiet world *)

Lemma pingID_not_board username : pingID username ≠ RedisTopPingKey.
Proof. discriminate. Qed.

Lemma pingID_not_sketch username : pingID username ≠ RedisHyperLogLogKey.
Proof. discriminate. Qed.

Lemma board_not_sketch : RedisTopPingKey ≠ RedisHyperLogLogKey.
Proof. discriminate. Qed.

Lemma hset_hash key f v d h :
  Redis.hgetall key d = (h, None) →
  Redis.hset key f v d = (None, <[key := Redis.VHash (<[f := v]> h)]> d).
Proof.
  unfold Redis.hgetall, Redis.hset. intros Hh.
  destruct (d !! key) as [[] |]; simplify_eq/=; by rewrite ?insert_empty.
Qed.

Lemma hgetall_insert_hash key h d :
  Redis.hgetall key (<[key := Redis.VHash h]> d) = (h, None).
Proof. unfold Redis.hgetall. by rewrite lookup_insert_eq. Qed.

(** In a quiet world [setPingInfo] on a key that is free or holds a hash
    succeeds, whichever field the runtime visits first, and leaves
    [pingRecord] there. *)
Lemma setPingInfo_quiet key b t d os tr h :
  Redis.hgetall key d = (h, None) →
  ∃ os' evs,
    setPingInfo key b t (World d [] os tr) =
      (Done None,
       World (<[key := Redis.VHash (pingRecord b t h)]> d) [] os' (evs ++ tr))
    ∧ Forall (λ ev, ev = Redis.Ev Redis.HSET key None) evs.
Proof.
  intros Hh.
  assert (Hrun : ∀ os' f1 v1 f2 v2,
    hset_each key [(f1, v1); (f2, v2)] (World d [] os' tr) =
      (Done None,
       World (<[key := Redis.VHash
                 (<[f2 := GoNum.Itoa v2]> (<[f1 := GoNum.Itoa v1]> h))]> d)
             [] os'
             ([Redis.Ev Redis.HSET key None; Redis.Ev Redis.HSET key None] ++ tr))).
  { intros os' f1 v1 f2 v2.
    unfold hset_each, bind, redisClient_HSet, write_cmd, ret. simpl.
    rewrite (hset_hash _ _ _ _ _ Hh). simpl.
    rewrite (hset_hash _ _ _ _ _ (hgetall_insert_hash _ _ _)). simpl.
    by rewrite insert_insert_eq. }
  unfold setPingInfo, bind, range_order, pingRecord.
  destruct os as [| [] os']; cbn -[hset_each]; rewrite Hrun;
    (eexists _, [_; _]; split; [| by repeat constructor]); try done.
  all: do 4 f_equal; by apply insert_insert_ne.
Qed.

Section limiter_facts.
Import GoNum.

Lemma digit_of_range c dg : digit_of c = Some dg → 0 <= dg <= 9.
Proof.
  unfold digit_of. destruct (_ && _) eqn:Hc; [| done].
  apply andb_true_iff in Hc as [?%Z.leb_le ?%Z.leb_le].
  intros [= <-]. lia.
Qed.

Lemma ParseUint_loop_bound maxVal s n :
  0 <= n <= maxVal →
  0 <= (ParseUint_loop maxVal s n).1 <= maxVal.
Proof.
  revert n. induction s as [| c s IH]; intros n Hn; simpl; [done |].
  destruct (digit_of c) as [dg |] eqn:Hc; simpl; [| lia].
  apply digit_of_range in Hc.
  destruct (_ <=? n); simpl; [lia |].
  destruct (Z.ltb_spec maxVal (n * 10 + dg)); simpl; [lia |].
  apply IH. lia.
Qed.

Lemma ParseInt_in_int32 s : in_int32 (ParseInt s 32).1.
Proof.
  unfold in_int32, ParseInt. destruct s as [| c rest]; [simpl; lia |].
  cbv zeta.
  set (body := if (Ascii.eqb c "+" || Ascii.eqb c "-")%bool
               then rest else String c rest).
  assert (0 <= (ParseUint body 32).1 <= 2 ^ 32 - 1) as Hb.
  { unfold ParseUint. destruct body; simpl; [lia |].
    apply (ParseUint_loop_bound (2 ^ 32 - 1) (String _ _) 0). lia. }
  destruct (ParseUint body 32) as [un [[] |]]; simpl in *; try lia.
  all: destruct (Ascii.eqb c "-"); simpl;
    repeat (case_match; simpl); lia.
Qed.

(** The arithmetic of [canMakePing] on a parsed record and a plausible
    clock reading is exact. *)
Lemma elapsed_exact now l : epoch now → in_int32 l → int_sub now l = now - l.
Proof.
  unfold epoch, in_int32, int_sub. intros. apply wrap64_id.
  unfold in_int64, minInt64, maxInt64. lia.
Qed.

Lemma newBlockTime_exact now l :
  epoch now → in_int32 l →
  int_of_float64
    (math_Max (float64_of_int 0)
       (float64_of_int (int_sub (int_add l PingRateLimit) now)))
  = Z.max 0 (l + PingRateLimit - now).
Proof.
  unfold epoch, in_int32, int_sub, int_add, PingRateLimit. intros Hn Hl.
  rewrite (wrap64_id (l + 60)) by (unfold in_int64, minInt64, maxInt64; lia).
  rewrite wrap64_id by (unfold in_int64, minInt64, maxInt64; lia).
  unfold float64_of_int, math_Max.
  rewrite !float64_round_small by lia.
  apply int_of_float64_id. unfold in_int64, minInt64, maxInt64. lia.
Qed.
End limiter_facts.

(** [canMakePing] in a quiet world, by the three ways it can go. *)
Lemma canMakePing_first username now d os tr :
  d !! pingID username = None →
  ∃ os' evs,
    canMakePing username now (World d [] os tr) =
      (Done true,
       World (<[pingID username := Redis.VHash (pingRecord 0 now ∅)]> d)
             [] os' (evs ++ tr)).
Proof.
  intros Hk.
  assert (Hh : Redis.hgetall (pingID username) d = (∅, None)).
  { unfold Redis.hgetall. by rewrite Hk. }
  destruct (setPingInfo_quiet (pingID username) 0 now d os
              (Redis.Ev Redis.HGETALL (pingID username) None :: tr) ∅ Hh)
    as (os' & evs & Hset & _).
  exists os', (evs ++ [Redis.Ev Redis.HGETALL (pingID username) None]).
  unfold canMakePing, bind, redisClient_HGetAll, read_cmd.
  cbn -[setPingInfo pingID]. fold (pingID username). rewrite Hh.
  cbn -[setPingInfo pingID]. rewrite decide_True by apply map_size_empty.
  rewrite Hset. by rewrite <- app_assoc.
Qed.

Lemma canMakePing_present username now d os tr h :
  d !! pingID username = Some (Redis.VHash h) → h ≠ ∅ → epoch now →
  let b := blockTime_of h in
  let l := lastPingTime_of h in
  if b <? now - l then
    ∃ os' evs,
      canMakePing username now (World d [] os tr) =
        (Done true,
         World (<[pingID username :=
                    Redis.VHash (pingRecord (Z.max 0 (l + PingRateLimit - now)) now h)]> d)
               [] os' (evs ++ tr))
  else
    canMakePing username now (World d [] os tr) =
      (Done false,
       World d [] os (Redis.Ev Redis.HGETALL (pingID username) None :: tr)).
Proof.
  intros Hk Hne Hnow b l.
  assert (Hh : Redis.hgetall (pingID username) d = (h, None)).
  { unfold Redis.hgetall. by rewrite Hk. }
  assert (Hsz : size h ≠ 0%nat) by (by apply map_size_non_empty_iff).
  pose proof (ParseInt_in_int32 (field h "lastPingTime")) as Hl.
  fold (lastPingTime_of h) in Hl. fold l in Hl.
  unfold canMakePing, bind, redisClient_HGetAll, read_cmd.
  cbn -[setPingInfo pingID GoNum.ParseInt]. fold (pingID username). rewrite Hh.
  cbn -[setPingInfo pingID GoNum.ParseInt].
  rewrite decide_False by done.
  fold (blockTime_of h) (lastPingTime_of h). fold b l.
  rewrite elapsed_exact, newBlockTime_exact by done.
  destruct (b <? now - l); [| done].
  fold (pingID username).
  destruct (setPingInfo_quiet (pingID username)
              (Z.max 0 (l + PingRateLimit - now)) now d os
              (Redis.Ev Redis.HGETALL (pingID username) None :: tr) h Hh)
    as (os' & evs & Hset & _).
  exists os', (evs ++ [Redis.Ev Redis.HGETALL (pingID username) None]).
  rewrite Hset. by rewrite <- app_assoc.
Qed.

(** ** The rate limiter *)

(** C3.  A caller who has no rate state yet (the key is free) is let through
    on a quiet store, and the call creates the record with blockTime 0 and
    lastPingTime the clock reading of the call. *)
Theorem first_call_allowed (username : string) (now : Z) (w : world) :
  quiet w →
  db w !! pingID username = None →
  ∃ w',
    canMakePing username now w = (Done true, w')
    ∧ db w' =
        <[pingID username :=
            Redis.VHash {[ "blockTime" := GoNum.Itoa 0;
                           "lastPingTime" := GoNum.Itoa now ]}]> (db w)
    ∧ blockTime_of (rateHash (db w') username) = 0
    ∧ (GoNum.in_int32 now → lastPingTime_of (rateHash (db w') username) = now).
Proof.
  destruct w as [d fs os tr]. unfold quiet. simpl. intros -> Hk.
  destruct (canMakePing_first username now d os tr Hk) as (os' & evs & Hrun).
  eexists. split; [exact Hrun |]. simpl.
  unfold rateHash. rewrite hgetall_insert_hash. simpl.
  split; [| split].
  - unfold pingRecord. by rewrite insert_empty.
  - reflexivity.
  - intros Hnow. unfold lastPingTime_of, pingRecord, field.
    rewrite lookup_insert_ne, lookup_insert_eq by done. simpl.
    by rewrite ParseInt_Itoa_fits.
Qed.

Lemma first_call_allowed_witness :
  ∃ w',
    canMakePing "alice" 0 freshWorld = (Done true, w')
    ∧ db w' =
        <[pingID "alice" :=
            Redis.VHash {[ "blockTime" := GoNum.Itoa 0;
                           "lastPingTime" := GoNum.Itoa 0 ]}]> (db freshWorld)
    ∧ blockTime_of (rateHash (db w') "alice") = 0
    ∧ (GoNum.in_int32 0 → lastPingTime_of (rateHash (db w') "alice") = 0).
Proof.
  apply (first_call_allowed "alice" 0 freshWorld); reflexivity.
Defined.

(** C2.  A caller whose record reads blockTime [b] and lastPingTime [l] and
    who calls at [now] with [now - l > b] is let through, and the record
    becomes blockTime [max 0 (l + PingRateLimit - now)], lastPingTime [now];
    the new blockTime is 0 once [l + PingRateLimit <= now].  The fields are
    within the 32 bits that [canMakePing] parses them with, the clock
    reading is a plausible one, and the store is quiet. *)
Theorem allowed_call_renews (username : string) (now b l : Z)
    (h : gmap string string) (w : world) :
  quiet w → epoch now →
  db w !! pingID username = Some (Redis.VHash h) →
  h !! "blockTime" = Some (GoNum.Itoa b) →
  h !! "lastPingTime" = Some (GoNum.Itoa l) →
  GoNum.in_int32 b → GoNum.in_int32 l →
  now - l > b →
  ∃ w',
    canMakePing username now w = (Done true, w')
    ∧ db w' =
        <[pingID username :=
            Redis.VHash
              (<["blockTime" := GoNum.Itoa (Z.max 0 (l + PingRateLimit - now))]>
                 (<["lastPingTime" := GoNum.Itoa now]> h))]> (db w)
    ∧ (l + PingRateLimit <= now →
       field (rateHash (db w') username) "blockTime" = GoNum.Itoa 0).
Proof.
  destruct w as [d fs os tr]. unfold quiet. simpl.
  intros -> Hnow Hk Hb Hl Hbr Hlr Hgt.
  assert (Hne : h ≠ ∅) by (intros ->; by rewrite lookup_empty in Hb).
  pose proof (canMakePing_present username now d os tr h Hk Hne Hnow) as Hrun.
  unfold blockTime_of, lastPingTime_of, field in Hrun.
  rewrite Hb, Hl in Hrun. simpl in Hrun.
  rewrite !ParseInt_Itoa_fits in Hrun by done. simpl in Hrun.
  destruct (Z.ltb_spec b (now - l)); [| lia].
  destruct Hrun as (os' & evs & Hrun).
  eexists. split; [exact Hrun |]. simpl. split; [done |].
  intros Hold. unfold rateHash. rewrite hgetall_insert_hash. simpl.
  unfold field, pingRecord. rewrite lookup_insert_eq. simpl.
  by rewrite Z.max_l by lia.
Qed.

Lemma allowed_call_renews_witness :
  ∃ w',
    canMakePing "alice" 65 (ratedWorld "alice" 50 10) = (Done true, w')
    ∧ db w' =
        <[pingID "alice" :=
            Redis.VHash
              (<["blockTime" := GoNum.Itoa (Z.max 0 (10 + PingRateLimit - 65))]>
                 (<["lastPingTime" := GoNum.Itoa 65]> (rateRecord 50 10)))]>
          (db (ratedWorld "alice" 50 10))
    ∧ (10 + PingRateLimit <= 65 →
       field (rateHash (db w') "alice") "blockTime" = GoNum.Itoa 0).
Proof.
  apply (allowed_call_renews "alice" 65 50 10 (rateRecord 50 10)
           (ratedWorld "alice" 50 10));
    try reflexivity; unfold epoch, GoNum.in_int32; lia.
Defined.

Lemma blockTime_of_pingRecord b t h :
  blockTime_of (pingRecord b t h) = GoNum.clamp32 b.
Proof.
  unfold blockTime_of, pingRecord, field. rewrite lookup_insert_eq. simpl.
  by rewrite ParseInt_Itoa.
Qed.

Lemma lastPingTime_of_pingRecord b t h :
  lastPingTime_of (pingRecord b t h) = GoNum.clamp32 t.
Proof.
  unfold lastPingTime_of, pingRecord, field.
  rewrite lookup_insert_ne, lookup_insert_eq by done. simpl.
  by rewrite ParseInt_Itoa.
Qed.

Lemma pingRecord_nonempty b t h : pingRecord b t h ≠ ∅.
Proof. unfold pingRecord. apply insert_non_empty. Qed.

Lemma clamp32_fits z : GoNum.in_int32 z → GoNum.clamp32 z = z.
Proof. unfold GoNum.in_int32, GoNum.clamp32. lia. Qed.

(** C1, as the code has it.  The first call leaves blockTime 0, so a second
    call inside the window is refused only in the very second of the first
    and is let through at any later one; it is the third call that is
    refused until [PingRateLimit] seconds after the first.  With a window
    of 60: calls at 0, 10 and 65 are all let through and the score is 3. *)
Theorem second_call_allowed_third_blocked (username : string)
    (t0 t1 t2 : Z) (w : world) :
  quiet w →
  db w !! pingID username = None →
  0 <= t0 → t0 <= t1 <= t0 + PingRateLimit → t1 <= t2 < 2 ^ 31 →
  (∃ w0 w1 w2,
     canMakePing username t0 w = (Done true, w0)
     ∧ canMakePing username t1 w0 = (Done (bool_decide (t0 < t1)), w1)
     ∧ (t0 < t1 →
        canMakePing username t2 w1 =
          (Done (bool_decide (t0 + PingRateLimit < t2)), w2)))
  ∧ (serve [("alice", 0); ("alice", 10); ("alice", 65)] freshWorld).1 =
      [Done PingSucceeded; Done PingSucceeded; Done PingSucceeded]
  ∧ score (db (serve [("alice", 0); ("alice", 10); ("alice", 65)] freshWorld).2)
          "alice" = 3.
Proof.
  destruct w as [d fs os tr]. unfold quiet, PingRateLimit. simpl.
  intros -> Hk H0 H1 H2.
  split; [| split; vm_compute; reflexivity].
  destruct (canMakePing_first username t0 d os tr Hk) as (os0 & evs0 & Hrun0).
  set (h0 := pingRecord 0 t0 ∅) in *.
  set (d0 := <[pingID username := Redis.VHash h0]> d) in *.
  assert (Hk0 : d0 !! pingID username = Some (Redis.VHash h0))
    by apply lookup_insert_eq.
  assert (He1 : epoch t1) by (unfold epoch; lia).
  assert (He2 : epoch t2) by (unfold epoch; lia).
  pose proof (canMakePing_present username t1 d0 os0 (evs0 ++ tr) h0 Hk0
                (pingRecord_nonempty _ _ _) He1) as Hrun1.
  assert (Hb0 : blockTime_of h0 = 0).
  { unfold h0. rewrite blockTime_of_pingRecord. by apply clamp32_fits. }
  assert (Hl0 : lastPingTime_of h0 = t0).
  { unfold h0. rewrite lastPingTime_of_pingRecord.
    apply clamp32_fits. unfold GoNum.in_int32. lia. }
  cbv zeta in Hrun1. rewrite Hb0, Hl0 in Hrun1. unfold PingRateLimit in Hrun1.
  destruct (Z.ltb_spec 0 (t1 - t0)).
  - destruct Hrun1 as (os1 & evs1 & Hrun1).
    set (h1 := pingRecord (0 `max` (t0 + 60 - t1)) t1 h0) in *.
    set (d1 := <[pingID username := Redis.VHash h1]> d0) in *.
    assert (Hk1 : d1 !! pingID username = Some (Redis.VHash h1))
      by apply lookup_insert_eq.
    pose proof (canMakePing_present username t2 d1 os1 (evs1 ++ evs0 ++ tr) h1
                  Hk1 (pingRecord_nonempty _ _ _) He2) as Hrun2.
    assert (Hb1 : blockTime_of h1 = 0 `max` (t0 + 60 - t1)).
    { unfold h1. rewrite blockTime_of_pingRecord.
      apply clamp32_fits. unfold GoNum.in_int32. lia. }
    assert (Hl1 : lastPingTime_of h1 = t1).
    { unfold h1. rewrite lastPingTime_of_pingRecord.
      apply clamp32_fits. unfold GoNum.in_int32. lia. }
    cbv zeta in Hrun2. rewrite Hb1, Hl1 in Hrun2. unfold PingRateLimit in Hrun2.
    destruct (Z.ltb_spec (0 `max` (t0 + 60 - t1)) (t2 - t1)).
    + destruct Hrun2 as (os2 & evs2 & Hrun2).
      eexists _, _, _. split; [exact Hrun0 |].
      rewrite bool_decide_eq_true_2 by lia. split; [exact Hrun1 |].
      intros _. rewrite bool_decide_eq_true_2 by lia. exact Hrun2.
    + eexists _, _, _. split; [exact Hrun0 |].
      rewrite bool_decide_eq_true_2 by lia. split; [exact Hrun1 |].
      intros _. rewrite bool_decide_eq_false_2 by lia. exact Hrun2.
  - eexists _, _, freshWorld. split; [exact Hrun0 |].
    rewrite bool_decide_eq_false_2 by lia. split; [exact Hrun1 | lia].
Qed.

Lemma second_call_allowed_third_blocked_witness :
  (∃ w0 w1 w2,
     canMakePing "alice" 0 freshWorld = (Done true, w0)
     ∧ canMakePing "alice" 10 w0 = (Done (bool_decide (0 < 10)), w1)
     ∧ (0 < 10 →
        canMakePing "alice" 40 w1 =
          (Done (bool_decide (0 + PingRateLimit < 40)), w2)))
  ∧ (serve [("alice", 0); ("alice", 10); ("alice", 65)] freshWorld).1 =
      [Done PingSucceeded; Done PingSucceeded; Done PingSucceeded]
  ∧ score (db (serve [("alice", 0); ("alice", 10); ("alice", 65)] freshWorld).2)
          "alice" = 3.
Proof.
  apply (second_call_allowed_third_blocked "alice" 0 10 40 freshWorld);
    try reflexivity; unfold PingRateLimit; lia.
Defined.

(** C1 as the specification words it fails on the code: with a window of 60
    a caller let through at 0 is let through again at 10, not refused, and
    the call at 65 brings the score to 3, not 2. *)
Lemma second_call_in_window_not_blocked :
  (canMakePing "alice" 0 freshWorld).1 = Done true
  ∧ (canMakePing "alice" 10 (canMakePing "alice" 0 freshWorld).2).1 ≠ Done false
  ∧ (serve [("alice", 0); ("alice", 10); ("alice", 65)] freshWorld).1
      ≠ [Done PingSucceeded; Done RateLimitExceeded; Done PingSucceeded]
  ∧ score (db (serve [("alice", 0); ("alice", 10); ("alice", 65)] freshWorld).2)
          "alice" ≠ 2.
Proof. vm_compute. repeat split; discriminate. Qed.

(** ** Refusals and the session gate *)

(** When [canMakePing] answers [false] it has issued a single command, the
    HGETALL, and that one succeeded. *)
Lemma canMakePing_refusal username now w w' :
  canMakePing username now w = (Done false, w') →
  w' = World (db w) (tail (faults w)) (orders w)
             (Redis.Ev Redis.HGETALL (pingID username) None :: trace w).
Proof.
  unfold canMakePing, bind, redisClient_HGetAll, read_cmd.
  fold (pingID username). intros Hrun.
  assert (Hset : ∀ b t w1 w2,
    (let (o, w3) := setPingInfo (pingID username) b t w1 in
     match o with
     | Done a => match a with Some e => panic e | None => ret true end w3
     | Panicked e => (Panicked e, w3)
     end) ≠ (Done false, w2)).
  { intros b t w1 w2. destruct (setPingInfo _ b t w1) as [[[e |] | e] w3];
      unfold panic, ret; congruence. }
  assert (Herr : ∀ h e, Redis.hgetall (pingID username) (db w) = (h, e) →
                        size h ≠ 0%nat → e = None).
  { unfold Redis.hgetall. intros h e Hh Hsz.
    repeat case_match; simplify_eq; try done; by rewrite map_size_empty in Hsz. }
  destruct (Redis.hgetall (pingID username) (db w)) as [h e] eqn:Hh.
  destruct (faults w) as [| [] fs] eqn:Hf; simpl in Hrun.
  - destruct (decide (size h = 0%nat)).
    + by apply Hset in Hrun.
    + destruct (_ <? _); [by apply Hset in Hrun |].
      unfold ret in Hrun. simplify_eq. by rewrite (Herr h e).
  - rewrite decide_True in Hrun by apply map_size_empty. by apply Hset in Hrun.
  - destruct (decide (size h = 0%nat)).
    + by apply Hset in Hrun.
    + destruct (_ <? _); [by apply Hset in Hrun |].
      unfold ret in Hrun. simplify_eq. by rewrite (Herr h e).
Qed.

(** The gate issues at most one command, a GET, and never panics; what it
    lets through is the name read under the cookie, and on a quiet store it
    is [letThrough]. *)
Lemma sessionGate_runs cookie w :
  ∃ who evs,
    sessionGate cookie w =
      (Done who, World (db w) (drop (length evs) (faults w)) (orders w)
                       (evs ++ trace w))
    ∧ no_writes evs
    ∧ (∀ username, who = Some username → letThrough (db w) cookie = Some username)
    ∧ (quiet w → who = letThrough (db w) cookie).
Proof.
  unfold sessionGate, bind, redisClient_Get, read_cmd, ret, no_writes, quiet,
    letThrough, nameUnder.
  destruct w as [d fs os tr]. simpl.
  destruct cookie as [sid |];
    [| exists None, []; simpl; rewrite drop_0; repeat split; (done || constructor)].
  assert (Hev : ∀ ev : Redis.event, Redis.ev_cmd ev = Redis.GET →
            Forall (λ ev, Redis.is_write (Redis.ev_cmd ev) = false) [ev]).
  { intros ev Hev. repeat constructor. by rewrite Hev. }
  destruct fs as [| [] fs]; simpl;
    [| eexists None, [_]; simpl; rewrite drop_0;
       (split; [done | split; [by apply Hev | split; done]]) |];
    destruct (Redis.get sid d) as [u [e |]]; simpl;
    destruct (String.eqb sid ""), (String.eqb u ""); simpl;
    eexists _, [_]; simpl; rewrite ?drop_0;
    (split; [done | split; [by apply Hev | split; done]]).
Qed.

(** [pingAs] answers 429 only on a refusal by [canMakePing]. *)
Lemma pingAs_refusal username now w w' :
  pingAs username now w = (Done RateLimitExceeded, w') →
  canMakePing username now w = (Done false, w').
Proof.
  unfold pingAs, bind. destruct (canMakePing username now w) as [[[] | e] w1].
  - destruct (increaseCounter username w1) as [[[] | e] w2]; unfold ret; congruence.
  - unfold ret. congruence.
  - congruence.
Qed.

(** C4.  A refusal changes nothing: whether it is [canMakePing] answering
    [false] or [handlePing] answering 429, the store is as it was (rate
    state, leaderboard and sketch alike) and no write command was issued. *)
Theorem blocked_call_changes_nothing (cookie : option string)
    (username : string) (now : Z) (w w' : world) :
  canMakePing username now w = (Done false, w')
  ∨ handlePing cookie now w = (Done RateLimitExceeded, w') →
  db w' = db w ∧ ∃ evs, issued w w' evs ∧ no_writes evs.
Proof.
  intros [Hrun | Hrun].
  - apply canMakePing_refusal in Hrun as ->. simpl. split; [done |].
    eexists [_]. split; [done | by repeat constructor].
  - unfold handlePing, bind in Hrun.
    destruct (sessionGate_runs cookie w) as (who & evs & Hgate & Hevs & _).
    rewrite Hgate in Hrun. destruct who as [u |]; [| unfold ret in Hrun; congruence].
    apply pingAs_refusal, canMakePing_refusal in Hrun as ->. simpl.
    split; [done |]. eexists (_ :: evs). split; [done |].
    by constructor.
Qed.

Lemma blocked_call_changes_nothing_witness :
  db (canMakePing "alice" 20 (ratedWorld "alice" 50 10)).2
    = db (ratedWorld "alice" 50 10)
  ∧ ∃ evs, issued (ratedWorld "alice" 50 10)
                  (canMakePing "alice" 20 (ratedWorld "alice" 50 10)).2 evs
           ∧ no_writes evs.
Proof.
  apply (blocked_call_changes_nothing None "alice" 20).
  left. vm_compute. reflexivity.
Defined.

Lemma pingAs_authorized username now w w' :
  pingAs username now w ≠ (Done Unauthorized, w').
Proof.
  unfold pingAs, bind. destruct (canMakePing username now w) as [[[] | e] w1].
  - destruct (increaseCounter username w1) as [[[] | e] w2]; unfold ret; congruence.
  - unfold ret. congruence.
  - congruence.
Qed.

(** Off the key of the sketch, the name read under a token is the caller
    the sessions bind it to. *)
Lemma nameUnder_session d sessionID :
  holds_sketch d sessionID = false →
  nameUnder d sessionID = session d sessionID.
Proof.
  unfold holds_sketch, nameUnder, session, Redis.get.
  by destruct (d !! sessionID) as [[] |].
Qed.

Lemma letThrough_validate d cookie :
  (∀ sessionID, cookie = Some sessionID → holds_sketch d sessionID = false) →
  letThrough d cookie = validate d cookie.
Proof.
  intros Hk. destruct cookie as [sid |]; [| done]. simpl.
  destruct (String.eqb sid ""); [done |]. by apply nameUnder_session, Hk.
Qed.

Lemma hll_image_named m : String.eqb (Redis.hll_image m) "" = false.
Proof. done. Qed.

(** C7.  The gate is a GET of the token, and the store keeps the sketch
    inside a string: the key of the sketch passes for a session.  Once the
    key [hyperloglog] holds the sketch, on a quiet store the token
    [hyperloglog], which is not among the sessions and which [validate]
    turns away, is let through under the name of the sketch's image:
    [handlePing] goes on as the ping of that name and does not answer
    401. *)
Theorem sketch_key_passes_gate (now : Z) (w : world) (m : gset string) :
  quiet w →
  db w !! RedisHyperLogLogKey = Some (Redis.VHLL m) →
  session (db w) RedisHyperLogLogKey = None
  ∧ validate (db w) (Some RedisHyperLogLogKey) = None
  ∧ (∃ name w',
       sessionGate (Some RedisHyperLogLogKey) w = (Done (Some name), w')
       ∧ name ≠ "" ∧ db w' = db w
       ∧ handlePing (Some RedisHyperLogLogKey) now w = pingAs name now w')
  ∧ (handlePing (Some RedisHyperLogLogKey) now w).1 ≠ Done Unauthorized.
Proof.
  intros Hq Hk.
  assert (Hs : session (db w) RedisHyperLogLogKey = None)
    by (unfold session; by rewrite Hk).
  assert (Hgate : sessionGate (Some RedisHyperLogLogKey) w =
                    (Done (Some (Redis.hll_image m)),
                     World (db w) [] (orders w)
                       (Redis.Ev Redis.GET RedisHyperLogLogKey None
                          :: trace w))).
  { destruct w as [d fs os tr]. unfold quiet in Hq. simpl in *. subst fs.
    unfold sessionGate, bind, redisClient_Get, read_cmd. simpl.
    unfold Redis.get. by rewrite Hk. }
  assert (Hping : handlePing (Some RedisHyperLogLogKey) now w =
                    pingAs (Redis.hll_image m) now
                      (World (db w) [] (orders w)
                         (Redis.Ev Redis.GET RedisHyperLogLogKey None
                            :: trace w)))
    by (unfold handlePing, bind; by rewrite Hgate).
  split; [exact Hs |]. split; [simpl; exact Hs |]. split.
  - eexists _, _. split; [exact Hgate |]. by repeat split.
  - rewrite Hping. intros Hun.
    destruct (pingAs _ now _) as [o w1] eqn:Hp. simpl in Hun. subst o.
    by apply pingAs_authorized in Hp.
Qed.

Lemma sketch_key_passes_gate_witness :
  session (db pingedWorld) RedisHyperLogLogKey = None
  ∧ validate (db pingedWorld) (Some RedisHyperLogLogKey) = None
  ∧ (handlePing (Some RedisHyperLogLogKey) 200 pingedWorld).1
      ≠ Done Unauthorized.
Proof.
  destruct (sketch_key_passes_gate 200 pingedWorld {[ "alice" ]})
    as (Hs & Hv & _ & Hping); [reflexivity | by vm_compute |].
  by repeat split.
Defined.

(** The run of it: alice logs in and pings once; then a request that
    carries no session but the cookie [hyperloglog] is answered 200, and
    the leaderboard gets a caller named after the sketch's image. *)
Example ping_without_login :
  session (db pingedWorld) "tok" = Some "alice"
  ∧ (∀ sessionID, sessionID ≠ "tok" → session (db pingedWorld) sessionID = None)
  ∧ (handlePing (Some "hyperloglog") 200 pingedWorld).1 = Done PingSucceeded
  ∧ score (db (handlePing (Some "hyperloglog") 200 pingedWorld).2)
      (Redis.hll_image {[ "alice" ]}) = 1.
Proof.
  split; [by vm_compute |]. split; [| split; by vm_compute].
  intros sid Hsid. unfold session.
  destruct (db pingedWorld !! sid) as [[u | | |] |] eqn:Hk; try done.
  exfalso. apply Hsid.
  assert (Hdb : db pingedWorld =
    <[ "tok" := Redis.VString "alice" ]>
      (delete "tok" (db pingedWorld))) by (by vm_compute).
  rewrite Hdb in Hk. destruct (decide (sid = "tok")) as [| Hne]; [done |].
  rewrite lookup_insert_ne in Hk by done.
  assert (Hrest : map_Forall (λ _ v, kind_of v ≠ KString)
                    (delete "tok" (db pingedWorld))).
  { apply map_Forall_to_list. vm_compute. repeat constructor; done. }
  by apply Hrest in Hk.
Qed.

(** X16.  Off the key of the sketch the gate is [validate].  It never
    panics and never writes: it issues at most a GET and leaves the store
    as it was.
    For a cookie that does not name a key holding a sketch, a caller it
    lets through is the one the sessions bind the token to, and on a quiet
    store it is unauthorized exactly when the token is missing, empty or
    not among the sessions.  [handlePing] answers 401 exactly when the gate
    lets nobody through. *)
Theorem gate_follows_sessions (cookie : option string) (now : Z) (w : world) :
  (∀ sessionID, cookie = Some sessionID →
     holds_sketch (db w) sessionID = false) →
  ∃ who w',
    sessionGate cookie w = (Done who, w')
    ∧ db w' = db w
    ∧ (∃ evs, issued w w' evs ∧ no_writes evs)
    ∧ (∀ username, who = Some username →
         ∃ sessionID, cookie = Some sessionID ∧ sessionID ≠ ""
                      ∧ session (db w) sessionID = Some username)
    ∧ (quiet w →
         who = validate (db w) cookie
         ∧ (who = None ↔
              cookie = None ∨ cookie = Some ""
              ∨ ∃ sessionID, cookie = Some sessionID
                             ∧ session (db w) sessionID = None))
    ∧ (who = None ↔ (handlePing cookie now w).1 = Done Unauthorized).
Proof.
  intros Hk. apply letThrough_validate in Hk.
  destruct (sessionGate_runs cookie w) as (who & evs & Hgate & Hevs & Hsome & Hq).
  rewrite Hk in Hsome, Hq.
  eexists who, _. split; [exact Hgate |]. simpl. split; [done |].
  split; [by exists evs |]. split; [| split].
  - intros u Hu. apply Hsome in Hu. unfold validate in Hu.
    destruct cookie as [sid |]; [| done].
    destruct (String.eqb_spec sid ""); [done |]. by exists sid.
  - intros Hquiet. specialize (Hq Hquiet). split; [done |].
    rewrite Hq. unfold validate. destruct cookie as [sid |]; [| naive_solver].
    destruct (String.eqb_spec sid "") as [-> | Hsid]; [naive_solver |].
    split.
    + intros Hs. right. right. by exists sid.
    + intros [? | [[= ?] | (sid' & [= <-] & Hs)]]; done.
  - unfold handlePing, bind. rewrite Hgate. destruct who as [u |]; simpl.
    + split; [done |]. intros Hun.
      destruct (pingAs u now _) as [o w1] eqn:Hp. simpl in Hun. subst o.
      by apply pingAs_authorized in Hp.
    + done.
Qed.

Lemma gate_follows_sessions_witness :
  ∃ who w',
    sessionGate (Some "tok") pingedWorld = (Done who, w')
    ∧ who = Some "alice"
    ∧ (handlePing (Some "tok") 120 pingedWorld).1 ≠ Done Unauthorized.
Proof.
  destruct (gate_follows_sessions (Some "tok") 120 pingedWorld)
    as (who & w' & Hrun & _ & _ & _ & Hq & Hping).
  { by intros sid [= <-]. }
  exists who, w'. destruct (Hq eq_refl) as [Hwho _].
  split; [exact Hrun |]. split; [rewrite Hwho; by vm_compute |].
  intros Hun. apply Hping in Hun. rewrite Hwho in Hun. by vm_compute in Hun.
Defined.

(** ** What a handler can touch *)

Lemma only_at_refl key w : only_at key w w.
Proof. by split. Qed.

Lemma only_at_trans key w1 w2 w3 :
  only_at key w1 w2 → only_at key w2 w3 → only_at key w1 w3.
Proof.
  intros [H1 Q1] [H2 Q2]. split; [| auto].
  intros k Hk. by rewrite H2, H1.
Qed.

Lemma read_cmd_only_at {A} c key0 key (zero : A) sem w r w' :
  read_cmd c key0 zero sem w = (r, w') → only_at key w w'.
Proof.
  unfold read_cmd, only_at, quiet. destruct w as [d fs os tr]. simpl.
  destruct fs as [| [] fs]; intros [= <- <-]; by simpl.
Qed.

Lemma hset_each_only_at key kvs w o w' :
  hset_each key kvs w = (o, w') → only_at key w w'.
Proof.
  revert w. induction kvs as [| [f v] kvs IH]; intros w; simpl.
  - intros [= <- <-]. apply only_at_refl.
  - unfold bind, redisClient_HSet, write_cmd.
    assert (Hstep : ∀ k, k ≠ key →
      (Redis.hset key f (GoNum.Itoa v) (db w)).2 !! k = db w !! k).
    { intros k Hk. unfold Redis.hset. repeat case_match; simpl;
        by rewrite ?lookup_insert_ne. }
    destruct w as [d fs os tr]. simpl in *.
    destruct fs as [| [] fs]; simpl.
    + destruct (Redis.hset key f (GoNum.Itoa v) d) as [[e |] d1]; simpl in *.
      * intros [= <- <-]. by split.
      * intros Hrun. apply IH in Hrun. eapply only_at_trans; [| exact Hrun].
        by split.
    + intros [= <- <-]. by split.
    + destruct (Redis.hset key f (GoNum.Itoa v) d) as [[e |] d1]; simpl in *.
      * intros [= <- <-]. by split.
      * intros Hrun. apply IH in Hrun. eapply only_at_trans; [| exact Hrun].
        by split.
Qed.

Lemma setPingInfo_only_at key b t w o w' :
  setPingInfo key b t w = (o, w') → only_at key w w'.
Proof.
  unfold setPingInfo, bind, range_order. destruct w as [d fs os tr]. simpl.
  destruct os as [| blockFirst os]; intros Hrun;
    apply hset_each_only_at in Hrun;
    (eapply only_at_trans; [| exact Hrun]); by split.
Qed.

Lemma canMakePing_only_at username now w o w' :
  canMakePing username now w = (o, w') → only_at (pingID username) w w'.
Proof.
  unfold canMakePing, bind. fold (pingID username).
  destruct (redisClient_HGetAll (pingID username) w) as [r w1] eqn:Hget.
  apply (read_cmd_only_at _ _ (pingID username)) in Hget.
  assert (Hset : ∀ b t,
    (let (o, w3) := setPingInfo (pingID username) b t w1 in
     match o with
     | Done a => match a with Some e => panic e | None => ret true end w3
     | Panicked e => (Panicked e, w3)
     end) = (o, w') → only_at (pingID username) w w').
  { intros b t. destruct (setPingInfo _ b t w1) as [o3 w3] eqn:Hs.
    apply setPingInfo_only_at in Hs.
    destruct o3 as [[e |] | e]; unfold panic, ret; intros [= <- <-];
      by eapply only_at_trans. }
  destruct r as [[pingInfo e] | e]; [| by intros [= <- <-]].
  destruct (decide _); [apply Hset |].
  destruct (_ <? _); [apply Hset |]. by intros [= <- <-].
Qed.

(** ** The usage recorder *)

Lemma read_cmd_quiet {A} c key (zero : A) sem d os tr :
  read_cmd c key zero sem (World d [] os tr) =
    (Done (sem d), World d [] os (Redis.Ev c key (sem d).2 :: tr)).
Proof. reflexivity. Qed.

Lemma write_cmd_quiet c key sem d os tr :
  write_cmd c key sem (World d [] os tr) =
    (Done (sem d).1,
     World (sem d).2 [] os (Redis.Ev c key (sem d).1 :: tr)).
Proof. reflexivity. Qed.

Lemma score_board d u : score d u = default 0 (board d !! u).
Proof.
  unfold score, board, Redis.zscore.
  destruct (d !! RedisTopPingKey) as [[] |]; try done.
  by destruct (_ !! u).
Qed.

Lemma zadd_board d s u :
  Redis.zadd RedisTopPingKey s u d =
    if decide (board_ok d)
    then (None, <[RedisTopPingKey := Redis.VZSet (<[u := s]> (board d))]> d)
    else (Some Redis.WrongType, d).
Proof.
  destruct (decide (board_ok d)) as [Hb | Hb];
    unfold Redis.zadd, board_ok, board in *;
    destruct (d !! RedisTopPingKey) as [[] |]; simpl; done.
Qed.

Lemma pfadd_sketch d u :
  Redis.pfadd RedisHyperLogLogKey u d =
    if decide (sketch_ok d)
    then (None, <[RedisHyperLogLogKey := Redis.VHLL ({[u]} ∪ sketch d)]> d)
    else (Some Redis.WrongType, d).
Proof.
  destruct (decide (sketch_ok d)) as [Hs | Hs];
    unfold Redis.pfadd, sketch_ok, sketch in *;
    destruct (d !! RedisHyperLogLogKey) as [[] |]; simpl; try done.
  all: by rewrite union_empty_r_L.
Qed.

(** On a quiet store whose sketch key is in order, [increaseCounter] either
    records the caller (score plus one, as a [float64]; caller in the
    sketch) or, when the leaderboard key holds something else, panics
    having changed nothing. *)
Lemma increaseCounter_quiet username d os tr :
  sketch_ok d →
  ∃ o d' evs,
    increaseCounter username (World d [] os tr) = (o, World d' [] os (evs ++ tr))
    ∧ sketch_ok d'
    ∧ (board_ok d → o = Done tt ∧ board_ok d'
                    ∧ sketch d' = {[username]} ∪ sketch d)
    ∧ (∀ k, k ≠ RedisTopPingKey → k ≠ RedisHyperLogLogKey → d' !! k = d !! k)
    ∧ (∀ u, score d' u =
            match o with
            | Done _ => if String.eqb username u
                        then GoNum.float64_add (score d u) 1 else score d u
            | Panicked _ => score d u
            end).
Proof.
  intros Hsk. pose proof board_not_sketch as Hne.
  unfold increaseCounter, bind, redisClient_ZScore, redisClient_ZAdd,
    redisClient_PFAdd.
  rewrite read_cmd_quiet.
  destruct (Redis.zscore RedisTopPingKey username d) as [totalPing e] eqn:Hz.
  assert (Htp : totalPing = score d username) by (unfold score; by rewrite Hz).
  cbv beta iota. rewrite write_cmd_quiet, zadd_board.
  destruct (decide (board_ok d)) as [Hb | Hb]; simpl.
  - set (d1 := <[RedisTopPingKey := _]> d).
    assert (Hsk1 : sketch_ok d1).
    { unfold sketch_ok, d1. by rewrite lookup_insert_ne. }
    assert (Hs1 : sketch d1 = sketch d).
    { unfold sketch, d1. by rewrite lookup_insert_ne. }
    rewrite pfadd_sketch, decide_True by done. simpl.
    eexists _, _, [_; _; _]. split; [reflexivity |].
    split; [| split; [| split]].
    + unfold sketch_ok. by rewrite lookup_insert_eq.
    + intros _. split; [done |]. split.
      * unfold board_ok, d1.
        by rewrite lookup_insert_ne, lookup_insert_eq.
      * unfold sketch at 1. by rewrite lookup_insert_eq, Hs1.
    + intros k H1 H2. unfold d1. by rewrite !lookup_insert_ne.
    + intros u. rewrite !score_board. unfold board at 1, d1.
      rewrite lookup_insert_ne, lookup_insert_eq by done.
      destruct (String.eqb_spec username u) as [-> | Hu].
      * rewrite lookup_insert_eq. simpl. by rewrite Htp, score_board.
      * by rewrite lookup_insert_ne.
  - unfold panic. eexists _, _, [_; _]. split; [reflexivity |].
    split; [done |]. split; [done |]. by split.
Qed.

Lemma score_same_board d d' u :
  d' !! RedisTopPingKey = d !! RedisTopPingKey → score d' u = score d u.
Proof. unfold score, Redis.zscore. by intros ->. Qed.

(** One ping on a quiet store whose sketch key is in order: the store stays
    quiet and in order, and the only score that moves is the caller's, by
    one, when the answer is 200. *)
Lemma pingAs_quiet username now w :
  quiet w → sketch_ok (db w) →
  ∃ o w1,
    pingAs username now w = (o, w1)
    ∧ quiet w1 ∧ sketch_ok (db w1)
    ∧ (∀ u, score (db w1) u =
            match o with
            | Done PingSucceeded =>
                if String.eqb username u
                then GoNum.float64_add (score (db w) u) 1 else score (db w) u
            | _ => score (db w) u
            end).
Proof.
  intros Hq Hsk. unfold pingAs, bind.
  destruct (canMakePing username now w) as [o1 w1] eqn:Hcan.
  apply canMakePing_only_at in Hcan as [Hfr Hq1]. specialize (Hq1 Hq).
  pose proof (Hfr _ (not_eq_sym (pingID_not_board username))) as Hb1.
  pose proof (Hfr _ (not_eq_sym (pingID_not_sketch username))) as Hs1.
  assert (Hsk1 : sketch_ok (db w1)) by (unfold sketch_ok; by rewrite Hs1).
  destruct o1 as [[] | e].
  - destruct w1 as [d1 fs1 os1 tr1]. unfold quiet in Hq1. simpl in *. subst fs1.
    destruct (increaseCounter_quiet username d1 os1 tr1 Hsk1)
      as (o2 & d2 & evs & Hinc & Hsk2 & _ & _ & Hsc).
    rewrite Hinc. destruct o2 as [[] | e]; unfold ret;
      eexists _, _; (split; [reflexivity |]); simpl;
      (split; [done |]); (split; [done |]);
      intros u; rewrite Hsc; by rewrite (score_same_board _ _ _ Hb1).
  - unfold ret. eexists _, _. split; [reflexivity |].
    split; [done |]. split; [done |]. intros u. by apply score_same_board.
  - eexists _, _. split; [reflexivity |].
    split; [done |]. split; [done |]. intros u. by apply score_same_board.
Qed.

Lemma allowed_nonneg username calls outs : 0 <= allowed username calls outs.
Proof.
  revert outs. induction calls as [| [u t] calls IH]; intros [| o outs];
    simpl; try lia.
  specialize (IH outs). repeat case_match; lia.
Qed.

Lemma serve_scores username calls w :
  quiet w → sketch_ok (db w) →
  0 <= score (db w) username →
  score (db w) username + allowed username calls (serve calls w).1 <= 2 ^ 53 →
  score (db (serve calls w).2) username =
    score (db w) username + allowed username calls (serve calls w).1.
Proof.
  revert w. induction calls as [| [u t] calls IH]; intros w Hq Hsk H0 Hle.
  - simpl. lia.
  - simpl in *.
    destruct (pingAs_quiet u t w Hq Hsk) as (o & w1 & Hp & Hq1 & Hsk1 & Hsc).
    rewrite Hp in *. specialize (IH w1 Hq1 Hsk1).
    destruct (serve calls w1) as [outs w2] eqn:Hs. simpl in *.
    pose proof (allowed_nonneg username calls outs) as Hnn.
    specialize (Hsc username).
    assert (Hstep : score (db w1) username =
              score (db w) username
              + match o with
                | Done PingSucceeded => if String.eqb u username then 1 else 0
                | _ => 0
                end).
    { rewrite Hsc. destruct o as [[] | e]; try lia.
      destruct (String.eqb u username); [| lia].
      unfold GoNum.float64_add. apply float64_round_small. lia. }
    rewrite IH; [lia | |].
    + rewrite Hstep. repeat case_match; lia.
    + lia.
Qed.

(** C5.  Starting from a caller who is not on the leaderboard (score 0),
    after any sequence of pings by any callers the caller's score is the
    number of that caller's pings that were answered 200: refusals and
    other callers' pings leave it alone.  Each recording reads the score
    (0 when the caller is not on the board) and writes it back plus one,
    which is exact below 2^53.
    The count is within the whole numbers a [float64] score holds exactly;
    the store is quiet and its leaderboard and sketch keys are in order. *)
Theorem score_counts_allowed_calls (username : string)
    (calls : list (string * Z)) (n : Z) (w : world) :
  quiet w → board_ok (db w) → sketch_ok (db w) →
  score (db w) username = 0 →
  allowed username calls (serve calls w).1 = n →
  n <= 2 ^ 53 →
  score (db (serve calls w).2) username = n
  ∧ (∀ now w', pingAs username now w = (Done RateLimitExceeded, w') →
       score (db w') username = score (db w) username)
  ∧ (∀ w0, quiet w0 → board_ok (db w0) → sketch_ok (db w0) →
       0 <= score (db w0) username < 2 ^ 53 →
       ∃ w1, increaseCounter username w0 = (Done tt, w1)
             ∧ score (db w1) username
               = default 0 (board (db w0) !! username) + 1).
Proof.
  intros Hq Hb Hsk H0 Hn Hle. split; [| split].
  - rewrite serve_scores by (done || lia). lia.
  - intros now w' Hp.
    apply pingAs_refusal, canMakePing_refusal in Hp as ->. done.
  - intros [d fs os tr] Hq0 Hb0 Hsk0 Hs0. unfold quiet in Hq0.
    simpl in *. subst fs.
    destruct (increaseCounter_quiet username d os tr Hsk0)
      as (o & d' & evs & Hinc & _ & Hok & _ & Hsc).
    destruct (Hok Hb0) as (-> & _ & _).
    eexists. split; [exact Hinc |]. simpl.
    rewrite Hsc, String.eqb_refl, <- score_board.
    unfold GoNum.float64_add. apply float64_round_small. lia.
Qed.

Lemma score_counts_allowed_calls_witness :
  score (db (serve [("alice", 0); ("bob", 3); ("alice", 10); ("alice", 20);
                    ("alice", 65)] freshWorld).2) "alice" = 3
  ∧ (∀ now w', pingAs "alice" now freshWorld = (Done RateLimitExceeded, w') →
       score (db w') "alice" = score (db freshWorld) "alice")
  ∧ (∀ w0, quiet w0 → board_ok (db w0) → sketch_ok (db w0) →
       0 <= score (db w0) "alice" < 2 ^ 53 →
       ∃ w1, increaseCounter "alice" w0 = (Done tt, w1)
             ∧ score (db w1) "alice"
               = default 0 (board (db w0) !! "alice") + 1).
Proof.
  apply (score_counts_allowed_calls "alice"
           [("alice", 0); ("bob", 3); ("alice", 10); ("alice", 20);
            ("alice", 65)] 3 freshWorld);
    try (vm_compute; reflexivity); try exact I.
  vm_compute. discriminate.
Defined.

(** ** The distinct-caller count *)

Lemma recordAll_quiet usernames d os tr :
  board_ok d → sketch_ok d →
  ∃ d' evs,
    recordAll usernames (World d [] os tr) =
      (Done tt, World d' [] os (evs ++ tr))
    ∧ sketch_ok d'
    ∧ sketch d' = list_to_set usernames ∪ sketch d.
Proof.
  revert d tr. induction usernames as [| u us IH]; intros d tr Hb Hsk; simpl.
  - exists d, []. split; [done |]. split; [done |].
    by rewrite union_empty_l_L.
  - unfold bind.
    destruct (increaseCounter_quiet u d os tr Hsk)
      as (o & d1 & evs1 & Hinc & Hsk1 & Hok & _ & _).
    destruct (Hok Hb) as (-> & Hb1 & Hs1). rewrite Hinc.
    destruct (IH d1 (evs1 ++ tr) Hb1 Hsk1) as (d2 & evs2 & Hrec & Hsk2 & Hs2).
    rewrite Hrec. exists d2, (evs2 ++ evs1).
    split; [by rewrite <- app_assoc |]. split; [done |].
    rewrite Hs2, Hs1. simpl.
    by rewrite (assoc_L (∪)), (comm_L (∪) (list_to_set us)).
Qed.

Lemma handleCount_quiet d os tr :
  sketch_ok d →
  ∃ tr',
    handleCount (World d [] os tr) =
      (Done (NumberOfUsers (Z.of_nat (size (sketch d)))), World d [] os tr').
Proof.
  unfold handleCount, bind, redisClient_PFCount. rewrite read_cmd_quiet.
  unfold sketch_ok, sketch, Redis.pfcount.
  destruct (d !! RedisHyperLogLogKey) as [[] |]; try done; simpl; eauto.
Qed.

(** C9.  With the sketch kept as the exact set of the callers added to it,
    after the usage recorder has recorded N distinct callers on a quiet
    store whose sketch was empty the count handler answers N, which is not
    negative. *)
Theorem distinct_count_exact (usernames : list string) (w : world) :
  quiet w → board_ok (db w) →
  db w !! RedisHyperLogLogKey = None →
  NoDup usernames →
  ∃ w',
    recordAll usernames w = (Done tt, w')
    ∧ (handleCount w').1 =
        Done (NumberOfUsers (Z.of_nat (length usernames)))
    ∧ 0 <= Z.of_nat (length usernames).
Proof.
  destruct w as [d fs os tr]. unfold quiet. simpl. intros -> Hb Hk Hnd.
  assert (Hsk : sketch_ok d) by (unfold sketch_ok; by rewrite Hk).
  assert (Hs0 : sketch d = ∅) by (unfold sketch; by rewrite Hk).
  destruct (recordAll_quiet usernames d os tr Hb Hsk)
    as (d' & evs & Hrec & Hsk' & Hs').
  eexists. split; [exact Hrec |]. split; [| lia].
  destruct (handleCount_quiet d' os (evs ++ tr) Hsk') as (tr' & Hcount).
  rewrite Hcount. simpl. rewrite Hs', Hs0, union_empty_r_L.
  by rewrite size_list_to_set.
Qed.

Lemma distinct_count_exact_witness :
  ∃ w',
    recordAll ["alice"; "bob"; "carol"] freshWorld = (Done tt, w')
    ∧ (handleCount w').1 =
        Done (NumberOfUsers (Z.of_nat (length ["alice"; "bob"; "carol"])))
    ∧ 0 <= Z.of_nat (length ["alice"; "bob"; "carol"]).
Proof.
  apply (distinct_count_exact ["alice"; "bob"; "carol"] freshWorld);
    try reflexivity; try exact I.
  apply (bool_decide_unpack _). vm_compute. exact I.
Defined.

(** ** The leaderboard reader *)

#[global] Instance zrev_le_total : Total Redis.zrev_le.
Proof.
  intros [m1 s1] [m2 s2]. unfold Redis.zrev_le, Redis.zrev_leb. simpl.
  destruct (Z.ltb_spec s2 s1), (Z.ltb_spec s1 s2); simpl; auto; try lia.
  assert (s1 = s2) as -> by lia. rewrite Z.eqb_refl. simpl.
  destruct (String.leb_total m1 m2); auto.
Qed.

#[global] Instance by_score_desc_trans : Transitive by_score_desc.
Proof. unfold by_score_desc. intros a b c. lia. Qed.

Lemma zrev_le_by_score a b : Redis.zrev_le a b → by_score_desc a b.
Proof.
  unfold Redis.zrev_le, Redis.zrev_leb, by_score_desc.
  intros [H%Z.ltb_lt | [H%Z.eqb_eq _]%andb_true_iff]%orb_true_iff; lia.
Qed.

Lemma Sorted_weaken {A} (R S : relation A) l :
  (∀ x y, R x y → S x y) → Sorted R l → Sorted S l.
Proof.
  intros HRS. induction 1 as [| x l Hl IH Hhd]; constructor; [done |].
  destruct Hhd; constructor; auto.
Qed.

Lemma zrev_list_sorted z : StronglySorted by_score_desc (Redis.zrev_list z).
Proof.
  apply Sorted_StronglySorted; [apply _ |].
  eapply Sorted_weaken; [apply zrev_le_by_score |].
  apply Sorted_merge_sort, _.
Qed.

Lemma rank_range_sorted {A} (R : relation A) l start stop :
  StronglySorted R l → StronglySorted R (Redis.rank_range l start stop).
Proof.
  intros Hl. unfold Redis.rank_range. cbv zeta.
  destruct (_ || _); [constructor |].
  set (n := Z.to_nat _). set (m := Z.to_nat _).
  assert (Hd : StronglySorted R (drop m l)).
  { rewrite <- (take_drop m l) in Hl. by apply StronglySorted_app_1_r in Hl. }
  rewrite <- (take_drop n (drop m l)) in Hd.
  by apply StronglySorted_app_1_l in Hd.
Qed.

Lemma rank_range_top_length {A} (l : list A) k :
  1 <= k → Z.of_nat (length (Redis.rank_range l 0 (k - 1))) <= k.
Proof.
  intros Hk. unfold Redis.rank_range. cbv zeta.
  rewrite !Z.ltb_irrefl.
  destruct (Z.ltb_spec (k - 1) 0); [lia |].
  destruct (_ || _); [simpl; lia |].
  rewrite length_take.
  destruct (Z.leb_spec (Z.of_nat (length l)) (k - 1)); lia.
Qed.

Lemma zrevrange_top k d :
  1 <= k →
  Z.of_nat (length (Redis.zrevrange RedisTopPingKey 0 (k - 1) d).1) <= k
  ∧ StronglySorted by_score_desc (Redis.zrevrange RedisTopPingKey 0 (k - 1) d).1.
Proof.
  intros Hk. unfold Redis.zrevrange.
  destruct (d !! RedisTopPingKey) as [[s | h | z | m] |]; simpl;
    try (split; [lia | constructor]).
  split; [by apply rank_range_top_length |].
  apply rank_range_sorted, zrev_list_sorted.
Qed.

(** C6.  A range query for the first [k] ranks in reverse order ([k] at
    least 1) yields at most [k] pairs, non-increasing by score.
    [handleTop] asks for [TopPingCount] of them: it never panics, changes
    nothing, and answers either with such a list or, when the store fails
    or the key holds something else, with a 500.  On a quiet store with no
    leaderboard yet it answers with the empty list. *)
Theorem top_is_short_and_sorted (k : Z) (w : world) :
  1 <= k →
  (Z.of_nat (length (Redis.zrevrange RedisTopPingKey 0 (k - 1) (db w)).1) <= k
   ∧ StronglySorted by_score_desc
       (Redis.zrevrange RedisTopPingKey 0 (k - 1) (db w)).1)
  ∧ (∃ r w',
       handleTop w = (Done r, w') ∧ db w' = db w
       ∧ match r with
         | TopUsers l =>
             Z.of_nat (length l) <= TopPingCount
             ∧ StronglySorted by_score_desc l
         | TopFailed => ¬ (quiet w ∧ board_ok (db w))
         | _ => False
         end)
  ∧ (quiet w → db w !! RedisTopPingKey = None →
     (handleTop w).1 = Done (TopUsers [])).
Proof.
  intros Hk. split; [by apply zrevrange_top |].
  assert (H10 : 1 <= TopPingCount) by (unfold TopPingCount; lia).
  pose proof (zrevrange_top TopPingCount (db w) H10) as [Hlen Hsorted].
  unfold handleTop, bind, redisClient_ZRevRangeWithScores, read_cmd, ret, quiet.
  destruct w as [d fs os tr]. simpl in *. split.
  - destruct fs as [| [] fs]; simpl.
    + destruct (Redis.zrevrange _ _ _ d) as [l [e |]] eqn:Hz;
        eexists _, _; (split; [reflexivity |]); (split; [done |]); simpl;
        [| done].
      intros [_ Hb]. unfold Redis.zrevrange, board_ok in *.
      destruct (d !! RedisTopPingKey) as [[] |]; simplify_eq/=; done.
    + eexists _, _. split; [reflexivity |]. split; [done |]. by intros [? _].
    + destruct (Redis.zrevrange _ _ _ d) as [l [e |]] eqn:Hz;
        eexists _, _; (split; [reflexivity |]); (split; [done |]); simpl;
        [| done].
      by intros [? _].
  - intros -> Hb. simpl. unfold Redis.zrevrange. by rewrite Hb.
Qed.

Lemma top_is_short_and_sorted_witness :
  (Z.of_nat (length (Redis.zrevrange RedisTopPingKey 0 (3 - 1)
                       (db freshWorld)).1) <= 3
   ∧ StronglySorted by_score_desc
       (Redis.zrevrange RedisTopPingKey 0 (3 - 1) (db freshWorld)).1)
  ∧ (∃ r w',
       handleTop freshWorld = (Done r, w') ∧ db w' = db freshWorld
       ∧ match r with
         | TopUsers l =>
             Z.of_nat (length l) <= TopPingCount
             ∧ StronglySorted by_score_desc l
         | TopFailed => ¬ (quiet freshWorld ∧ board_ok (db freshWorld))
         | _ => False
         end)
  ∧ (quiet freshWorld → db freshWorld !! RedisTopPingKey = None →
     (handleTop freshWorld).1 = Done (TopUsers [])).
Proof. apply (top_is_short_and_sorted 3 freshWorld). lia. Defined.

Example handleTop_orders_callers :
  (handleTop
     (World {[ RedisTopPingKey :=
                 Redis.VZSet {[ "alice" := 3; "bob" := 7; "carol" := 3 ]} ]}
            [] [] [])).1
  = Done (TopUsers [("bob", 7); ("carol", 3); ("alice", 3)]).
Proof. vm_compute. reflexivity. Qed.

(** ** Store failures *)

Lemma read_cmd_event {A} c key (zero : A) sem w :
  ∃ r fs1,
    read_cmd c key zero sem w =
      (Done r, World (db w) fs1 (orders w) (Redis.Ev c key r.2 :: trace w))
    ∧ (head (faults w) = Some true → r = (zero, Some Redis.ConnErr)).
Proof.
  unfold read_cmd. destruct w as [d fs os tr]. simpl.
  destruct fs as [| [] fs];
    [exists (sem d), [] | exists (zero, Some Redis.ConnErr), fs
     | exists (sem d), fs]; by split.
Qed.

Lemma write_cmd_event c key sem w :
  ∃ err d1 fs1,
    write_cmd c key sem w =
      (Done err, World d1 fs1 (orders w) (Redis.Ev c key err :: trace w)).
Proof.
  unfold write_cmd. destruct w as [d fs os tr]. simpl.
  destruct fs as [| [] fs]; eexists _, _, _; reflexivity.
Qed.

(** [hset_each] issues HSETs until one fails or the fields run out. *)
Lemma hset_each_events key kvs w :
  ∃ err w' evs,
    hset_each key kvs w = (Done err, w')
    ∧ trace w' = evs ++ trace w
    ∧ Forall (λ ev, Redis.ev_cmd ev = Redis.HSET) evs
    ∧ (kvs ≠ [] → evs ≠ [])
    ∧ match err with
      | None => Forall (λ ev, Redis.ev_err ev = None) evs
      | Some e =>
          ∃ ev rest, evs = ev :: rest ∧ Redis.ev_err ev = Some e
                     ∧ Forall (λ ev, Redis.ev_err ev = None) rest
      end.
Proof.
  revert w. induction kvs as [| [f v] kvs IH]; intros w; simpl.
  - exists None, w, []. by repeat split.
  - unfold bind, redisClient_HSet.
    destruct (write_cmd_event Redis.HSET key
                (Redis.hset key f (GoNum.Itoa v)) w)
      as (err & d1 & fs1 & ->).
    destruct err as [e |].
    + unfold ret. eexists (Some e), _, [_]. simpl.
      split; [reflexivity |]. split; [done |].
      split; [by repeat constructor |]. split; [done |].
      eexists _, []. by repeat split.
    + destruct (IH (World d1 fs1 (orders w)
                      (Redis.Ev Redis.HSET key None :: trace w)))
        as (err & w' & evs & -> & Htr & Hcmd & _ & Herr).
      exists err, w', (evs ++ [Redis.Ev Redis.HSET key None]).
      split; [done |]. split; [by rewrite Htr, <- app_assoc |].
      split; [apply Forall_app; split; [done | by repeat constructor] |].
      split; [by destruct evs |].
      destruct err as [e |].
      * destruct Herr as (ev & rest & -> & He & Hrest).
        exists ev, (rest ++ [Redis.Ev Redis.HSET key None]).
        split; [done |]. split; [done |].
        apply Forall_app; split; [done | by repeat constructor].
      * apply Forall_app; split; [done | by repeat constructor].
Qed.

Lemma setPingInfo_events key b t w :
  ∃ err w' evs,
    setPingInfo key b t w = (Done err, w')
    ∧ trace w' = evs ++ trace w
    ∧ Forall (λ ev, Redis.ev_cmd ev = Redis.HSET) evs
    ∧ evs ≠ []
    ∧ match err with
      | None => Forall (λ ev, Redis.ev_err ev = None) evs
      | Some e =>
          ∃ ev rest, evs = ev :: rest ∧ Redis.ev_err ev = Some e
                     ∧ Forall (λ ev, Redis.ev_err ev = None) rest
      end.
Proof.
  unfold setPingInfo, bind, range_order.
  destruct (orders w) as [| blockFirst os];
    [| destruct blockFirst];
    match goal with
    | |- context [hset_each key ?kvs ?w1] =>
        destruct (hset_each_events key kvs w1)
          as (err & w' & evs & -> & Htr & Hcmd & Hne & Herr)
    end;
    exists err, w', evs; (repeat split; [done.. | by apply Hne | done]).
Qed.

Lemma panics_after_hsets {A} (x : A) evs ev0 err :
  Forall (λ ev, Redis.ev_cmd ev = Redis.HSET) evs →
  Redis.is_write (Redis.ev_cmd ev0) = false →
  match err with
  | None => Forall (λ ev, Redis.ev_err ev = None) evs
  | Some e =>
      ∃ ev rest, evs = ev :: rest ∧ Redis.ev_err ev = Some e
                 ∧ Forall (λ ev, Redis.ev_err ev = None) rest
  end →
  panics_on_failed_write
    (match err with Some e => Panicked e | None => Done x end)
    (evs ++ [ev0]).
Proof.
  intros Hcmd H0 Herr.
  assert (Hok0 : write_ok ev0) by (unfold write_ok; congruence).
  assert (Hoks : ∀ l, Forall (λ ev, Redis.ev_err ev = None) l →
                      Forall write_ok (l ++ [ev0])).
  { intros l Hl. apply Forall_app. split; [| by constructor].
    eapply Forall_impl; [exact Hl |]. by intros ev Hev _. }
  unfold panics_on_failed_write. destruct err as [e |].
  - destruct Herr as (ev & rest & -> & He & Hrest). simpl. split; [| auto].
    apply Forall_cons in Hcmd as [Hc _].
    intros e'. split.
    + intros [= <-]. exists ev, (rest ++ [ev0]). split; [done |].
      split; [by rewrite Hc | done].
    + intros (ev' & rest' & [= <- <-] & _ & He'). congruence.
  - split.
    + intros e'. split; [done |].
      intros (ev' & rest' & Heq & Hw & He').
      destruct evs as [| ev evs']; simpl in Heq; simplify_eq; [congruence |].
      apply Forall_cons in Herr as [? _]. congruence.
    + destruct evs as [| ev evs']; simpl; [constructor |].
      apply Forall_cons in Herr as [_ Herr]. auto.
Qed.

Lemma canMakePing_events username now w :
  ∃ o w' evs,
    canMakePing username now w = (o, w')
    ∧ issued w w' evs
    ∧ panics_on_failed_write o evs
    ∧ (head (faults w) = Some true →
       last evs = Some (Redis.Ev Redis.HGETALL (pingID username)
                                 (Some Redis.ConnErr))
       ∧ ∃ ev, ev ∈ evs ∧ Redis.ev_cmd ev = Redis.HSET).
Proof.
  unfold canMakePing, bind, redisClient_HGetAll, issued.
  fold (pingID username).
  destruct (read_cmd_event Redis.HGETALL (pingID username) ∅
              (Redis.hgetall (pingID username)) w)
    as ([pingInfo e0] & fs1 & -> & Hfault).
  set (ev0 := Redis.Ev Redis.HGETALL (pingID username) (pingInfo, e0).2).
  set (w1 := World (db w) fs1 (orders w) (ev0 :: trace w)).
  assert (Hset : ∀ b t, ∃ o w' evs,
    (let (o, w3) := setPingInfo (pingID username) b t w1 in
     match o with
     | Done a => match a with Some e => panic e | None => ret true end w3
     | Panicked e => (Panicked e, w3)
     end) = (o, w')
    ∧ trace w' = evs ++ trace w
    ∧ panics_on_failed_write o evs
    ∧ last evs = Some ev0
    ∧ ∃ ev, ev ∈ evs ∧ Redis.ev_cmd ev = Redis.HSET).
  { intros b t.
    destruct (setPingInfo_events (pingID username) b t w1)
      as (err & w' & evs & -> & Htr & Hcmd & Hne & Herr).
    pose proof (panics_after_hsets true evs ev0 err Hcmd eq_refl Herr) as Hp.
    exists (match err with Some e => Panicked e | None => Done true end),
      w', (evs ++ [ev0]).
    split; [by destruct err |].
    split; [by rewrite Htr, <- app_assoc |]. split; [done |].
    split; [by rewrite last_snoc |].
    destruct evs as [| ev evs']; [done |]. exists ev.
    apply Forall_cons in Hcmd as [? _]. split; [by constructor | done]. }
  destruct (decide (size pingInfo = 0%nat)) as [Hsz | Hsz].
  - destruct (Hset 0 now) as (o & w' & evs & Hrun & Htr & Hp & Hlast & Hw).
    exists o, w', evs. split; [done |]. split; [done |]. split; [done |].
    intros Hf. specialize (Hfault Hf). unfold ev0 in Hlast.
    rewrite Hfault in Hlast. by split.
  - assert (Hnofault : head (faults w) ≠ Some true).
    { intros Hf. specialize (Hfault Hf). by simplify_eq. }
    destruct (_ <? _).
    + match goal with
      | |- context [setPingInfo _ ?b ?t w1] =>
          destruct (Hset b t) as (o & w' & evs & Hrun & Htr & Hp & _)
      end.
      exists o, w', evs. split; [done |]. split; [done |]. by split.
    + unfold ret. exists (Done false), w1, [ev0]. split; [done |].
      split; [done |]. split; [| done].
      split; [| constructor].
      intros e. split; [done |].
      intros (ev & rest & [= <- <-] & Hw & _). done.
Qed.

Lemma increaseCounter_events username w :
  ∃ o w' evs,
    increaseCounter username w = (o, w')
    ∧ issued w w' evs
    ∧ panics_on_failed_write o evs
    ∧ (head (faults w) = Some true →
       last evs = Some (Redis.Ev Redis.ZSCORE RedisTopPingKey
                                 (Some Redis.ConnErr))
       ∧ ∃ ev, ev ∈ evs ∧ Redis.ev_cmd ev = Redis.ZADD).
Proof.
  unfold increaseCounter, bind, redisClient_ZScore, redisClient_ZAdd,
    redisClient_PFAdd, issued.
  destruct (read_cmd_event Redis.ZSCORE RedisTopPingKey 0
              (Redis.zscore RedisTopPingKey username) w)
    as ([totalPing e0] & fs1 & -> & Hfault).
  set (ev0 := Redis.Ev Redis.ZSCORE RedisTopPingKey (totalPing, e0).2).
  set (w1 := World (db w) fs1 (orders w) (ev0 :: trace w)).
  destruct (write_cmd_event Redis.ZADD RedisTopPingKey
              (Redis.zadd RedisTopPingKey (GoNum.float64_add totalPing 1)
                          username) w1)
    as (err1 & d2 & fs2 & ->).
  set (ev1 := Redis.Ev Redis.ZADD RedisTopPingKey err1).
  assert (Hread : head (faults w) = Some true →
            last [ev1; ev0] = Some (Redis.Ev Redis.ZSCORE RedisTopPingKey
                                             (Some Redis.ConnErr))
            ∧ ∀ evs, last (evs ++ [ev1; ev0])
                     = Some (Redis.Ev Redis.ZSCORE RedisTopPingKey
                                      (Some Redis.ConnErr))).
  { intros Hf. specialize (Hfault Hf). unfold ev0. rewrite Hfault.
    split; [done |]. intros evs.
    change [ev1; ?x] with ([ev1] ++ [x]).
    by rewrite app_assoc, last_snoc. }
  destruct err1 as [e1 |].
  - unfold panic. eexists _, _, [ev1; ev0]. split; [reflexivity |].
    split; [done |]. split; [split |].
    + intros e. split.
      * intros [= <-]. by exists ev1, [ev0].
      * by intros (ev & rest & [= <- <-] & _ & [= ->]).
    + by repeat constructor.
    + intros Hf. split; [by apply Hread |]. exists ev1. split; [by repeat constructor | done].
  - simpl.
    match goal with
    | |- context [write_cmd Redis.PFADD ?k ?sem ?w2] =>
        destruct (write_cmd_event Redis.PFADD k sem w2)
          as (err2 & d3 & fs3 & ->)
    end.
    set (ev2 := Redis.Ev Redis.PFADD RedisHyperLogLogKey err2).
    assert (Hoks : Forall write_ok [ev1; ev0]) by (by repeat constructor).
    destruct err2 as [e2 |]; unfold panic, ret;
      eexists _, _, [ev2; ev1; ev0]; (split; [reflexivity |]);
      (split; [done |]); (split; [split; [| done] |]).
    + intros e. split.
      * intros [= <-]. by exists ev2, [ev1; ev0].
      * by intros (ev & rest & [= <- <-] & _ & [= ->]).
    + intros Hf. split; [by apply (proj2 (Hread Hf) [ev2]) |].
      exists ev1. split; [by repeat constructor | done].
    + intros e. split; [done |].
      by intros (ev & rest & [= <- <-] & _ & [=]).
    + intros Hf. split; [by apply (proj2 (Hread Hf) [ev2]) |].
      exists ev1. split; [by repeat constructor | done].
Qed.

(** C8, as the code has it.  The rate limiter and the usage recorder have
    no error result: a store write of theirs that fails makes them panic
    with that error, there and then (every write before the last command
    went through), and nothing else makes them panic.  A read that fails
    does not stop them: the rate limiter goes on to its HSETs, the usage
    recorder to its ZADD. *)
Theorem failed_write_panics (username : string) (now : Z) (w : world) :
  (∃ o w' evs,
     canMakePing username now w = (o, w')
     ∧ issued w w' evs
     ∧ panics_on_failed_write o evs
     ∧ (head (faults w) = Some true →
        last evs = Some (Redis.Ev Redis.HGETALL (pingID username)
                                  (Some Redis.ConnErr))
        ∧ ∃ ev, ev ∈ evs ∧ Redis.ev_cmd ev = Redis.HSET))
  ∧ (∃ o w' evs,
       increaseCounter username w = (o, w')
       ∧ issued w w' evs
       ∧ panics_on_failed_write o evs
       ∧ (head (faults w) = Some true →
          last evs = Some (Redis.Ev Redis.ZSCORE RedisTopPingKey
                                    (Some Redis.ConnErr))
          ∧ ∃ ev, ev ∈ evs ∧ Redis.ev_cmd ev = Redis.ZADD)).
Proof.
  split; [apply canMakePing_events | apply increaseCounter_events].
Qed.

Lemma failed_write_panics_witness :
  ∃ o w' evs,
    canMakePing "alice" 20 (faultyWorld (db (ratedWorld "alice" 50 10)) [true])
      = (o, w')
    ∧ last evs = Some (Redis.Ev Redis.HGETALL (pingID "alice")
                                (Some Redis.ConnErr))
    ∧ ∃ ev, ev ∈ evs ∧ Redis.ev_cmd ev = Redis.HSET.
Proof.
  destruct (failed_write_panics "alice" 20
              (faultyWorld (db (ratedWorld "alice" 50 10)) [true]))
    as [(o & w' & evs & Hrun & _ & _ & Hread) _].
  exists o, w', evs. split; [exact Hrun |]. apply Hread. reflexivity.
Defined.

(** C8 as the specification words it fails on the code.  A failed HSET,
    ZADD or PFADD is not handed back as an error: the handler panics.  And
    a write is issued after the read before it failed: with the HGETALL
    lost, a caller who is inside a block period is taken for a newcomer,
    the record is overwritten and the call let through; with the ZSCORE
    lost, the score is written back as 1. *)
Lemma write_failure_is_a_panic :
  (canMakePing "alice" 0 (faultyWorld ∅ [false; true])).1
    = Panicked Redis.ConnErr
  ∧ (increaseCounter "alice" (faultyWorld ∅ [false; true])).1
    = Panicked Redis.ConnErr
  ∧ (increaseCounter "alice" (faultyWorld ∅ [false; false; true])).1
    = Panicked Redis.ConnErr
  ∧ (canMakePing "alice" 20 (ratedWorld "alice" 50 10)).1 = Done false
  ∧ (canMakePing "alice" 20
       (faultyWorld (db (ratedWorld "alice" 50 10)) [true])).1 = Done true
  ∧ trace (canMakePing "alice" 20
             (faultyWorld (db (ratedWorld "alice" 50 10)) [true])).2
    = [Redis.Ev Redis.HSET (pingID "alice") None;
       Redis.Ev Redis.HSET (pingID "alice") None;
       Redis.Ev Redis.HGETALL (pingID "alice") (Some Redis.ConnErr)]
  ∧ score (db (increaseCounter "alice"
                 (faultyWorld
                    {[ RedisTopPingKey := Redis.VZSet {[ "alice" := 5 ]} ]}
                    [true])).2) "alice" = 1.
Proof. vm_compute. repeat split; reflexivity. Qed.

(** ** The block period stays within the window *)

(** One HSET either puts the field in the hash under the key or fails and
    leaves the hash as it was. *)
Lemma HSet_record key f v w :
  ∃ err w',
    redisClient_HSet key f v w = (Done err, w')
    ∧ (Redis.hgetall key (db w')).1 =
        match err with
        | None => <[f := GoNum.Itoa v]> (Redis.hgetall key (db w)).1
        | Some _ => (Redis.hgetall key (db w)).1
        end.
Proof.
  unfold redisClient_HSet, write_cmd. destruct w as [d fs os tr]. simpl.
  assert (Hsem : (Redis.hgetall key (Redis.hset key f (GoNum.Itoa v) d).2).1 =
            match (Redis.hset key f (GoNum.Itoa v) d).1 with
            | None => <[f := GoNum.Itoa v]> (Redis.hgetall key d).1
            | Some _ => (Redis.hgetall key d).1
            end).
  { unfold Redis.hset, Redis.hgetall.
    destruct (d !! key) as [[] |] eqn:Hk; simpl;
      rewrite ?lookup_insert_eq, ?Hk; done. }
  destruct fs as [| [] fs]; eexists _, _; (split; [reflexivity |]); done.
Qed.

(** [setPingInfo] leaves each of the two fields either written or as it
    was; when it reports no error both are written. *)
Lemma setPingInfo_record key b t w :
  ∃ err w' (wb wl : bool),
    setPingInfo key b t w = (Done err, w')
    ∧ (Redis.hgetall key (db w')).1 =
        (if wb then <["blockTime" := GoNum.Itoa b]> else id)
          ((if wl then <["lastPingTime" := GoNum.Itoa t]> else id)
             (Redis.hgetall key (db w)).1)
    ∧ (err = None → wb = true ∧ wl = true).
Proof.
  assert (Htwo : ∀ f1 v1 f2 v2 w1,
    ∃ err w' (w1' w2' : bool),
      hset_each key [(f1, v1); (f2, v2)] w1 = (Done err, w')
      ∧ (Redis.hgetall key (db w')).1 =
          (if w2' then <[f2 := GoNum.Itoa v2]> else id)
            ((if w1' then <[f1 := GoNum.Itoa v1]> else id)
               (Redis.hgetall key (db w1)).1)
      ∧ (err = None → w1' = true ∧ w2' = true)).
  { intros f1 v1 f2 v2 w1. simpl. unfold bind, ret.
    destruct (HSet_record key f1 v1 w1) as (e1 & w2 & -> & H1).
    destruct e1 as [e1 |].
    - exists (Some e1), w2, false, false. by rewrite H1.
    - destruct (HSet_record key f2 v2 w2) as (e2 & w3 & -> & H2).
      destruct e2 as [e2 |].
      + exists (Some e2), w3, true, false. by rewrite H2, H1.
      + exists None, w3, true, true. by rewrite H2, H1. }
  unfold setPingInfo, bind, range_order.
  destruct (orders w) as [| [] os].
  - destruct (Htwo "blockTime" b "lastPingTime" t w)
      as (err & w' & w1' & w2' & -> & Hh & Herr).
    exists err, w', w1', w2'. split; [done |]. split; [| exact Herr].
    rewrite Hh. destruct w1', w2'; simpl; try done.
    by apply insert_insert_ne.
  - match goal with
    | |- context [hset_each key _ ?w1] =>
        destruct (Htwo "blockTime" b "lastPingTime" t w1)
          as (err & w' & w1' & w2' & -> & Hh & Herr)
    end.
    exists err, w', w1', w2'. split; [done |]. split; [| exact Herr].
    rewrite Hh. destruct w1', w2'; simpl; try done.
    by apply insert_insert_ne.
  - match goal with
    | |- context [hset_each key _ ?w1] =>
        destruct (Htwo "lastPingTime" t "blockTime" b w1)
          as (err & w' & w1' & w2' & -> & Hh & Herr)
    end.
    exists err, w', w2', w1'. split; [done |]. split; [done |].
    intros He. by destruct (Herr He).
Qed.

(** What [canMakePing] can leave of a caller's record: each field is either
    as it was or freshly written, the block period with [nb], which is 0 or
    what is left of the window since the last call.  When the call is let
    through both fields are written. *)
Lemma canMakePing_record username now w :
  epoch now →
  ∃ o w' (wb wl : bool) nb,
    canMakePing username now w = (o, w')
    ∧ rateHash (db w') username =
        (if wb then <["blockTime" := GoNum.Itoa nb]> else id)
          ((if wl then <["lastPingTime" := GoNum.Itoa now]> else id)
             (rateHash (db w) username))
    ∧ (o = Done true → wb = true ∧ wl = true)
    ∧ (nb = 0
       ∨ nb = Z.max 0 (lastPingTime_of (rateHash (db w) username)
                       + PingRateLimit - now)).
Proof.
  intros Hnow. unfold canMakePing, bind, redisClient_HGetAll, rateHash.
  fold (pingID username).
  assert (Hset : ∀ b w1, db w1 = db w → ∃ o w' (wb wl : bool),
    (let (o, w3) := setPingInfo (pingID username) b now w1 in
     match o with
     | Done a => match a with Some e => panic e | None => ret true end w3
     | Panicked e => (Panicked e, w3)
     end) = (o, w')
    ∧ (Redis.hgetall (pingID username) (db w')).1 =
        (if wb then <["blockTime" := GoNum.Itoa b]> else id)
          ((if wl then <["lastPingTime" := GoNum.Itoa now]> else id)
             (Redis.hgetall (pingID username) (db w)).1)
    ∧ (o = Done true → wb = true ∧ wl = true)).
  { intros b w1 Hdb.
    destruct (setPingInfo_record (pingID username) b now w1)
      as (err & w' & wb & wl & -> & Hh & Herr).
    rewrite Hdb in Hh.
    destruct err as [e |]; unfold panic, ret; eexists _, w', wb, wl;
      (split; [reflexivity |]); (split; [done |]); [done | auto]. }
  assert (Hget : ∃ pingInfo e0 w1,
    read_cmd Redis.HGETALL (pingID username) ∅
      (Redis.hgetall (pingID username)) w = (Done (pingInfo, e0), w1)
    ∧ db w1 = db w
    ∧ (pingInfo = (Redis.hgetall (pingID username) (db w)).1 ∨ pingInfo = ∅)).
  { unfold read_cmd. destruct w as [d fs os tr]. simpl.
    destruct (Redis.hgetall (pingID username) d) as [h0 e0] eqn:Hh.
    destruct fs as [| [] fs]; eexists _, _, _;
      (split; [reflexivity |]); simpl; auto. }
  destruct Hget as (pingInfo & e0 & w1 & -> & Hdb & HpingInfo).
  set (h := (Redis.hgetall (pingID username) (db w)).1) in *.
  destruct (decide (size pingInfo = 0%nat)) as [Hsz | Hsz].
  - destruct (Hset 0 w1 Hdb) as (o & w' & wb & wl & Hrun & Hh & Ho).
    exists o, w', wb, wl, 0. split; [exact Hrun |]. auto.
  - assert (pingInfo = h) as ->.
    { destruct HpingInfo as [-> | ->]; [done |].
      by rewrite map_size_empty in Hsz. }
    fold (lastPingTime_of h).
    rewrite newBlockTime_exact by (done || apply ParseInt_in_int32).
    destruct (_ <? _).
    + destruct (Hset (Z.max 0 (lastPingTime_of h + PingRateLimit - now)) w1 Hdb)
        as (o & w' & wb & wl & Hrun & Hh & Ho).
      exists o, w', wb, wl, (Z.max 0 (lastPingTime_of h + PingRateLimit - now)).
      split; [exact Hrun |]. auto.
    + unfold ret. exists (Done false), w1, false, false, 0.
      rewrite Hdb. split; [done |]. split; [done |]. split; [done | auto].
Qed.

Lemma blockTime_of_written (wb wl : bool) nb now h :
  blockTime_of
    ((if wb then <["blockTime" := GoNum.Itoa nb]> else id)
       ((if wl then <["lastPingTime" := GoNum.Itoa now]> else id) h))
  = if wb then GoNum.clamp32 nb else blockTime_of h.
Proof.
  unfold blockTime_of, field. destruct wb, wl; simpl;
    rewrite ?lookup_insert_eq, ?lookup_insert_ne by done; simpl;
    by rewrite ?ParseInt_Itoa.
Qed.

Lemma lastPingTime_of_written (wb wl : bool) nb now h :
  lastPingTime_of
    ((if wb then <["blockTime" := GoNum.Itoa nb]> else id)
       ((if wl then <["lastPingTime" := GoNum.Itoa now]> else id) h))
  = if wl then GoNum.clamp32 now else lastPingTime_of h.
Proof.
  unfold lastPingTime_of, field. destruct wb, wl; simpl;
    rewrite ?lookup_insert_ne, ?lookup_insert_eq by done; simpl;
    by rewrite ?ParseInt_Itoa.
Qed.

(** One call of the rate limiter at a clock reading that is not before the
    last call: whatever the store does, the record's last call stays not
    after the clock, a block period within the window stays within it, and
    a call that is let through leaves one within it. *)
Lemma canMakePing_rate_ok username now w :
  0 <= now <= 2 ^ 52 →
  lastPingTime_of (rateHash (db w) username) <= now →
  ∃ o w',
    canMakePing username now w = (o, w')
    ∧ lastPingTime_of (rateHash (db w') username) <= now
    ∧ (o = Done true →
       0 <= blockTime_of (rateHash (db w') username) <= PingRateLimit)
    ∧ (0 <= blockTime_of (rateHash (db w) username) <= PingRateLimit →
       0 <= blockTime_of (rateHash (db w') username) <= PingRateLimit).
Proof.
  intros Hnow Hlast.
  assert (He : epoch now) by (unfold epoch; lia).
  destruct (canMakePing_record username now w He)
    as (o & w' & wb & wl & nb & Hrun & Hh & Ho & Hnb).
  exists o, w'. split; [exact Hrun |]. rewrite Hh.
  rewrite blockTime_of_written, lastPingTime_of_written.
  assert (Hnb' : 0 <= nb <= PingRateLimit)
    by (unfold PingRateLimit in *; lia).
  assert (Hc : GoNum.clamp32 nb = nb).
  { apply clamp32_fits. unfold GoNum.in_int32, PingRateLimit in *. lia. }
  split; [| split].
  - destruct wl; [| done]. unfold GoNum.clamp32. lia.
  - intros Hok. destruct (Ho Hok) as [-> _]. by rewrite Hc.
  - intros Hb. destruct wb; [by rewrite Hc | done].
Qed.

Lemma last_cons_default {A} (l : list A) : ∀ x d,
  List.last (x :: l) d = List.last l x.
Proof.
  induction l as [| y l IH]; intros x d; [done |].
  change (List.last (x :: y :: l) d) with (List.last (y :: l) d).
  by rewrite !IH.
Qed.

Lemma acquireAll_rate_ok username times : ∀ t0 w,
  0 <= t0 → ascending t0 times →
  rate_ok t0 (rateHash (db w) username) →
  rate_ok (List.last times t0)
          (rateHash (db (acquireAll username times w)) username).
Proof.
  induction times as [| t rest IH]; intros t0 w H0 Hasc [Hb Hl]; [done |].
  destruct Hasc as [Ht Hasc].
  destruct (canMakePing_rate_ok username t w) as (o & w' & Hrun & Hl' & _ & Hb');
    [lia.. |].
  rewrite last_cons_default. simpl acquireAll. rewrite Hrun. simpl.
  apply IH; [lia | done |]. split; auto.
Qed.

(** C10.  With a clock that never goes back (and stays plausible): a call
    of the rate limiter that is let through leaves a block period between
    0 and [PingRateLimit], and a block period within that range stays
    within it over any call, let through or not, whatever the store does;
    so over any sequence of calls from a record in order, or from none,
    the record stays in order. *)
Theorem block_time_bounded (username : string) (now : Z) (w : world) :
  0 <= now <= 2 ^ 52 →
  lastPingTime_of (rateHash (db w) username) <= now →
  (∃ o w',
     canMakePing username now w = (o, w')
     ∧ lastPingTime_of (rateHash (db w') username) <= now
     ∧ (o = Done true →
        0 <= blockTime_of (rateHash (db w') username) <= PingRateLimit)
     ∧ (0 <= blockTime_of (rateHash (db w) username) <= PingRateLimit →
        0 <= blockTime_of (rateHash (db w') username) <= PingRateLimit))
  ∧ (∀ times t0 w0,
       0 <= t0 → ascending t0 times →
       rate_ok t0 (rateHash (db w0) username) →
       rate_ok (List.last times t0)
               (rateHash (db (acquireAll username times w0)) username))
  ∧ (∀ t0, 0 <= t0 → rate_ok t0 (rateHash (db freshWorld) username)).
Proof.
  intros Hnow Hlast. split; [by apply canMakePing_rate_ok |].
  split; [intros; by apply acquireAll_rate_ok |].
  intros t0 H0.
  unfold rate_ok, rateHash, Redis.hgetall, blockTime_of, lastPingTime_of,
    field, PingRateLimit.
  simpl. repeat (rewrite lookup_empty; simpl). lia.
Qed.

Lemma block_time_bounded_witness :
  ∃ o w',
    canMakePing "alice" 15 (ratedWorld "alice" 0 10) = (o, w')
    ∧ (o = Done true →
       0 <= blockTime_of (rateHash (db w') "alice") <= PingRateLimit).
Proof.
  destruct (block_time_bounded "alice" 15 (ratedWorld "alice" 0 10))
    as [(o & w' & Hrun & _ & Hok & _) _].
  - lia.
  - vm_compute. discriminate.
  - exists o, w'. split; [exact Hrun | exact Hok].
Defined.

Example acquireAll_alice :
  rateHash (db (acquireAll "alice" [0; 10; 20; 65; 66] freshWorld)) "alice"
  = rateRecord 5 65.
Proof. vm_compute. reflexivity. Qed.

(** The fields are parsed with 32 bits: a last call stored after
    19 January 2038 reads back as 2147483647, and a caller who is 10
    seconds into a block period of 50 is let through. *)
Example canMakePing_after_2038 :
  (canMakePing "alice" 3000000010 (ratedWorld "alice" 50 3000000000)).1
  = Done true
  ∧ lastPingTime_of (rateRecord 50 3000000000) = 2147483647.
Proof. vm_compute. split; reflexivity. Qed.

(** ** More on the rate limiter *)

(** X1.  What [setPingInfo] writes, [canMakePing] reads back: after a
    [setPingInfo] on a quiet store, under a key that is free or holds a
    hash, the two fields parse to the two numbers written when these fit in
    32 bits and to the nearest 32-bit bound otherwise; the other fields of
    the hash are as they were. *)
Theorem setPingInfo_read_back (key : string) (b t : Z)
    (h : gmap string string) (w : world) :
  quiet w →
  Redis.hgetall key (db w) = (h, None) →
  ∃ w',
    setPingInfo key b t w = (Done None, w')
    ∧ blockTime_of (Redis.hgetall key (db w')).1 = GoNum.clamp32 b
    ∧ lastPingTime_of (Redis.hgetall key (db w')).1 = GoNum.clamp32 t
    ∧ (GoNum.in_int32 b → GoNum.in_int32 t →
       blockTime_of (Redis.hgetall key (db w')).1 = b
       ∧ lastPingTime_of (Redis.hgetall key (db w')).1 = t)
    ∧ (∀ f, f ≠ "blockTime" → f ≠ "lastPingTime" →
       (Redis.hgetall key (db w')).1 !! f = h !! f).
Proof.
  destruct w as [d fs os tr]. unfold quiet. simpl. intros -> Hh.
  destruct (setPingInfo_quiet key b t d os tr h Hh) as (os' & evs & Hrun & _).
  eexists. split; [exact Hrun |]. simpl. rewrite hgetall_insert_hash. simpl.
  rewrite blockTime_of_pingRecord, lastPingTime_of_pingRecord.
  split; [done |]. split; [done |]. split.
  - intros Hb Ht. by rewrite !clamp32_fits.
  - intros f H1 H2. unfold pingRecord. by rewrite !lookup_insert_ne.
Qed.

Lemma setPingInfo_read_back_witness :
  ∃ w',
    setPingInfo (pingID "alice") 5 65 (ratedWorld "alice" 50 10) = (Done None, w')
    ∧ blockTime_of (Redis.hgetall (pingID "alice") (db w')).1 = GoNum.clamp32 5
    ∧ lastPingTime_of (Redis.hgetall (pingID "alice") (db w')).1
      = GoNum.clamp32 65
    ∧ (GoNum.in_int32 5 → GoNum.in_int32 65 →
       blockTime_of (Redis.hgetall (pingID "alice") (db w')).1 = 5
       ∧ lastPingTime_of (Redis.hgetall (pingID "alice") (db w')).1 = 65)
    ∧ (∀ f, f ≠ "blockTime" → f ≠ "lastPingTime" →
       (Redis.hgetall (pingID "alice") (db w')).1 !! f = rateRecord 50 10 !! f).
Proof.
  apply (setPingInfo_read_back (pingID "alice") 5 65 (rateRecord 50 10)
           (ratedWorld "alice" 50 10)); reflexivity.
Defined.

(** On a quiet store, for a caller with a record, [canMakePing] decides by
    the record alone: it answers whether the block period is over, and when
    it is, the record becomes what is left of the window and the clock. *)
Lemma canMakePing_decides username now w h :
  quiet w → epoch now →
  rateHash (db w) username = h → h ≠ ∅ →
  ∃ w',
    canMakePing username now w =
      (Done (bool_decide (blockTime_of h < now - lastPingTime_of h)), w')
    ∧ quiet w'
    ∧ rateHash (db w') username =
        if bool_decide (blockTime_of h < now - lastPingTime_of h)
        then pingRecord (Z.max 0 (lastPingTime_of h + PingRateLimit - now)) now h
        else h.
Proof.
  destruct w as [d fs os tr]. unfold quiet. simpl. intros -> Hnow Hh Hne.
  assert (Hk : d !! pingID username = Some (Redis.VHash h)).
  { unfold rateHash, Redis.hgetall in Hh.
    destruct (d !! pingID username) as [[] |]; simpl in *; by subst. }
  pose proof (canMakePing_present username now d os tr h Hk Hne Hnow) as Hrun.
  cbv zeta in Hrun.
  destruct (Z.ltb_spec (blockTime_of h) (now - lastPingTime_of h)).
  - destruct Hrun as (os' & evs & Hrun). rewrite bool_decide_eq_true_2 by done.
    eexists. split; [exact Hrun |]. split; [done |]. simpl.
    unfold rateHash. by rewrite hgetall_insert_hash.
  - rewrite bool_decide_eq_false_2 by lia.
    eexists. split; [exact Hrun |]. by split.
Qed.

(** X3.  Nobody waits longer than the window: on a quiet store, a caller
    whose record has a block period of at most [PingRateLimit] and whose
    last call is more than [PingRateLimit] seconds back is let through, and
    the call leaves a block period of 0. *)
Theorem allowed_after_window (username : string) (now : Z) (w : world) :
  quiet w → epoch now →
  rateHash (db w) username ≠ ∅ →
  blockTime_of (rateHash (db w) username) <= PingRateLimit →
  PingRateLimit < now - lastPingTime_of (rateHash (db w) username) →
  ∃ w',
    canMakePing username now w = (Done true, w')
    ∧ blockTime_of (rateHash (db w') username) = 0
    ∧ lastPingTime_of (rateHash (db w') username) = GoNum.clamp32 now.
Proof.
  intros Hq Hnow Hne Hb Hl.
  destruct (canMakePing_decides username now w _ Hq Hnow eq_refl Hne)
    as (w' & Hrun & _ & Hh).
  rewrite bool_decide_eq_true_2 in Hrun, Hh by lia.
  exists w'. split; [exact Hrun |]. rewrite Hh.
  rewrite blockTime_of_pingRecord, lastPingTime_of_pingRecord.
  split; [| done]. rewrite Z.max_l by lia. reflexivity.
Qed.

Lemma allowed_after_window_witness :
  ∃ w',
    canMakePing "alice" 71 (ratedWorld "alice" 50 10) = (Done true, w')
    ∧ blockTime_of (rateHash (db w') "alice") = 0
    ∧ lastPingTime_of (rateHash (db w') "alice") = GoNum.clamp32 71.
Proof.
  apply (allowed_after_window "alice" 71 (ratedWorld "alice" 50 10));
    try reflexivity; try (vm_compute; discriminate).
  unfold epoch. lia.
Defined.

(** A call that is let through has written both fields, in any world: the
    last call is the clock reading and the block period is not negative. *)
Lemma canMakePing_allowed_record username now w w' :
  epoch now →
  canMakePing username now w = (Done true, w') →
  ∃ nb, 0 <= nb
        ∧ rateHash (db w') username
          = pingRecord nb now (rateHash (db w) username).
Proof.
  intros Hnow Hrun.
  destruct (canMakePing_record username now w Hnow)
    as (o & w1 & wb & wl & nb & Hrun1 & Hh & Ho & Hnb).
  rewrite Hrun in Hrun1. injection Hrun1 as <- <-.
  destruct (Ho eq_refl) as [-> ->]. exists nb. split; [lia | done].
Qed.

(** X2.  Two calls per window, no more: of three calls of one caller that
    are let through one after the other, the second is later than the
    first and the third is more than [PingRateLimit] seconds after the
    first.  (Between them the caller's record is as the previous call left
    it; the store answers the second and the third call.) *)
Theorem two_calls_per_window (username : string) (t1 t2 t3 : Z)
    (w w1 v1 w2 v2 w3 : world) :
  0 <= t1 < 2 ^ 31 → 0 <= t2 < 2 ^ 31 → epoch t3 →
  canMakePing username t1 w = (Done true, w1) →
  quiet v1 → rateHash (db v1) username = rateHash (db w1) username →
  canMakePing username t2 v1 = (Done true, w2) →
  quiet v2 → rateHash (db v2) username = rateHash (db w2) username →
  canMakePing username t3 v2 = (Done true, w3) →
  t1 < t2 ∧ t1 + PingRateLimit < t3.
Proof.
  intros Ht1 Ht2 Ht3 Hrun1 Hq1 Hv1 Hrun2 Hq2 Hv2 Hrun3.
  assert (He1 : epoch t1) by (unfold epoch; lia).
  assert (He2 : epoch t2) by (unfold epoch; lia).
  destruct (canMakePing_allowed_record _ _ _ _ He1 Hrun1) as (nb1 & Hnb1 & Hh1).
  rewrite <- Hv1 in Hh1.
  destruct (canMakePing_decides username t2 v1 _ Hq1 He2 Hh1
              (pingRecord_nonempty _ _ _)) as (w2' & Hrun2' & _ & Hh2).
  rewrite Hrun2 in Hrun2'. injection Hrun2' as Hd2 <-.
  symmetry in Hd2. rewrite Hd2 in Hh2. apply bool_decide_eq_true_1 in Hd2.
  rewrite blockTime_of_pingRecord, lastPingTime_of_pingRecord in Hd2.
  rewrite lastPingTime_of_pingRecord in Hh2.
  rewrite (clamp32_fits t1) in Hd2, Hh2 by (unfold GoNum.in_int32; lia).
  assert (Hc1 : 0 <= GoNum.clamp32 nb1) by (unfold GoNum.clamp32; lia).
  rewrite <- Hv2 in Hh2.
  destruct (canMakePing_decides username t3 v2 _ Hq2 Ht3 Hh2
              (pingRecord_nonempty _ _ _)) as (w3' & Hrun3' & _ & _).
  rewrite Hrun3 in Hrun3'. injection Hrun3' as Hd3 _.
  symmetry in Hd3. apply bool_decide_eq_true_1 in Hd3.
  rewrite blockTime_of_pingRecord, lastPingTime_of_pingRecord in Hd3.
  rewrite (clamp32_fits t2) in Hd3 by (unfold GoNum.in_int32; lia).
  unfold PingRateLimit in *.
  rewrite clamp32_fits in Hd3 by (unfold GoNum.in_int32; lia).
  lia.
Qed.

Lemma two_calls_per_window_witness : 0 < 10 ∧ 0 + PingRateLimit < 65.
Proof.
  apply (two_calls_per_window "alice" 0 10 65
           freshWorld
           (canMakePing "alice" 0 freshWorld).2
           (World (db (canMakePing "alice" 0 freshWorld).2) [] [] [])
           (canMakePing "alice" 10
              (World (db (canMakePing "alice" 0 freshWorld).2) [] [] [])).2
           (World (db (canMakePing "alice" 10
                         (World (db (canMakePing "alice" 0 freshWorld).2)
                                [] [] [])).2) [] [] [])
           (canMakePing "alice" 65
              (World (db (canMakePing "alice" 10
                            (World (db (canMakePing "alice" 0 freshWorld).2)
                                   [] [] [])).2) [] [] [])).2);
    try (unfold epoch; lia); try reflexivity.
  all: vm_compute; reflexivity.
Defined.

(** X4.  The fields are parsed with 32 bits, so from clock reading
    [2^31 + PingRateLimit] on (19 January 2038, 03:15:08 UTC) the rate
    limiter refuses nobody: on a quiet store, a caller with a block period
    of at most [PingRateLimit], or with no record, is let through at every
    call. *)
Theorem no_refusal_after_2038 (username : string) (now : Z) (w : world) :
  quiet w →
  2 ^ 31 + PingRateLimit <= now <= 2 ^ 52 →
  (Redis.hgetall (pingID username) (db w)).2 = None →
  blockTime_of (rateHash (db w) username) <= PingRateLimit →
  ∃ w', canMakePing username now w = (Done true, w').
Proof.
  intros Hq Hnow Hok Hb.
  assert (He : epoch now) by (unfold epoch, PingRateLimit in *; lia).
  destruct (decide (rateHash (db w) username = ∅)) as [He0 | Hne].
  - destruct w as [d fs os tr]. unfold quiet in Hq. simpl in *. subst fs.
    unfold rateHash in He0.
    destruct (Redis.hgetall (pingID username) d) as [h e] eqn:Hh.
    simpl in *. subst h e.
    destruct (setPingInfo_quiet (pingID username) 0 now d os
                (Redis.Ev Redis.HGETALL (pingID username) None :: tr) ∅ Hh)
      as (os' & evs & Hset & _).
    unfold canMakePing, bind, redisClient_HGetAll.
    fold (pingID username). rewrite read_cmd_quiet, Hh.
    cbv beta iota. rewrite decide_True by apply map_size_empty.
    simpl. rewrite Hset. eauto.
  - destruct (canMakePing_decides username now w _ Hq He eq_refl Hne)
      as (w' & Hrun & _).
    pose proof (ParseInt_in_int32
                  (field (rateHash (db w) username) "lastPingTime")) as Hl.
    fold (lastPingTime_of (rateHash (db w) username)) in Hl.
    rewrite bool_decide_eq_true_2 in Hrun; [eauto |].
    unfold GoNum.in_int32, PingRateLimit in *. lia.
Qed.

Lemma no_refusal_after_2038_witness :
  ∃ w', canMakePing "alice" 3000000010 (ratedWorld "alice" 50 3000000000)
        = (Done true, w').
Proof.
  apply (no_refusal_after_2038 "alice" 3000000010
           (ratedWorld "alice" 50 3000000000));
    try reflexivity; try (vm_compute; discriminate).
  unfold PingRateLimit. lia.
Defined.

(** ** Lost round trips *)

(** X5.  A lost HGETALL lets a blocked caller through: when the read fails
    and nothing else does, [canMakePing] takes the caller for a newcomer
    whatever the record says, answers [true], and resets the record to a
    block period of 0 from the clock reading. *)
Theorem lost_read_lets_through (username : string) (now : Z) (w : world) :
  faults w = [true] →
  (Redis.hgetall (pingID username) (db w)).2 = None →
  ∃ w',
    canMakePing username now w = (Done true, w')
    ∧ rateHash (db w') username = pingRecord 0 now (rateHash (db w) username)
    ∧ blockTime_of (rateHash (db w') username) = 0.
Proof.
  destruct w as [d fs os tr]. simpl. intros -> Hok.
  unfold rateHash.
  destruct (Redis.hgetall (pingID username) d) as [h e] eqn:Hh.
  simpl in *. subst e.
  destruct (setPingInfo_quiet (pingID username) 0 now d os
              (Redis.Ev Redis.HGETALL (pingID username)
                        (Some Redis.ConnErr) :: tr) h Hh)
    as (os' & evs & Hset & _).
  unfold canMakePing, bind, redisClient_HGetAll, read_cmd.
  fold (pingID username). simpl.
  rewrite decide_True by apply map_size_empty. rewrite Hset.
  eexists. split; [reflexivity |]. simpl. rewrite hgetall_insert_hash. simpl.
  split; [done |]. by rewrite blockTime_of_pingRecord.
Qed.

Lemma lost_read_lets_through_witness :
  ∃ w',
    canMakePing "alice" 20 (faultyWorld (db (ratedWorld "alice" 50 10)) [true])
    = (Done true, w')
    ∧ rateHash (db w') "alice"
      = pingRecord 0 20
          (rateHash (db (faultyWorld (db (ratedWorld "alice" 50 10)) [true]))
                    "alice")
    ∧ blockTime_of (rateHash (db w') "alice") = 0.
Proof.
  apply (lost_read_lets_through "alice" 20
           (faultyWorld (db (ratedWorld "alice" 50 10)) [true])); reflexivity.
Defined.

(** X6.  A lost ZSCORE costs the caller the score: when the read fails and
    nothing else does, [increaseCounter] takes the score for 0 and writes
    back 1, whatever the score was; the other callers keep theirs. *)
Theorem lost_score_read_resets (username : string) (w : world) :
  faults w = [true] →
  board_ok (db w) → sketch_ok (db w) →
  ∃ w',
    increaseCounter username w = (Done tt, w')
    ∧ score (db w') username = 1
    ∧ (∀ u, u ≠ username → score (db w') u = score (db w) u).
Proof.
  destruct w as [d fs os tr]. simpl. intros -> Hb Hsk.
  pose proof board_not_sketch as Hne.
  unfold increaseCounter, bind, redisClient_ZScore, redisClient_ZAdd,
    redisClient_PFAdd, read_cmd, write_cmd.
  simpl. rewrite zadd_board, decide_True by done. simpl.
  rewrite pfadd_sketch, decide_True
    by (unfold sketch_ok; by rewrite lookup_insert_ne).
  simpl. eexists. split; [reflexivity |]. simpl. split.
  - rewrite score_board. unfold board.
    rewrite lookup_insert_ne, lookup_insert_eq by done.
    by rewrite lookup_insert_eq.
  - intros u Hu. rewrite !score_board. unfold board at 1.
    rewrite lookup_insert_ne, lookup_insert_eq by done.
    by rewrite lookup_insert_ne.
Qed.

Lemma lost_score_read_resets_witness :
  ∃ w',
    increaseCounter "alice"
      (faultyWorld {[ RedisTopPingKey := Redis.VZSet {[ "alice" := 5 ]} ]} [true])
    = (Done tt, w')
    ∧ score (db w') "alice" = 1
    ∧ (∀ u, u ≠ "alice" →
       score (db w') u
       = score (db (faultyWorld
                      {[ RedisTopPingKey := Redis.VZSet {[ "alice" := 5 ]} ]}
                      [true])) u).
Proof.
  apply (lost_score_read_resets "alice"
           (faultyWorld {[ RedisTopPingKey := Redis.VZSet {[ "alice" := 5 ]} ]}
                        [true])); try reflexivity; exact I.
Defined.

(** X7.  [setPingInfo] does not undo: when its first HSET goes through and
    its second is lost, it reports the error and the hash is left with the
    field it visited first written and the other as it was. *)
Theorem setPingInfo_half_written (key : string) (b t : Z)
    (h : gmap string string) (blockFirst : bool) (os : list bool) (w : world) :
  faults w = [false; true] →
  orders w = blockFirst :: os →
  Redis.hgetall key (db w) = (h, None) →
  ∃ w',
    setPingInfo key b t w = (Done (Some Redis.ConnErr), w')
    ∧ (Redis.hgetall key (db w')).1 =
        if blockFirst
        then <["blockTime" := GoNum.Itoa b]> h
        else <["lastPingTime" := GoNum.Itoa t]> h.
Proof.
  destruct w as [d fs os0 tr]. simpl. intros -> -> Hh.
  unfold setPingInfo, bind, range_order. simpl.
  destruct blockFirst; simpl;
    unfold bind, redisClient_HSet, write_cmd, ret; simpl;
    rewrite (hset_hash _ _ _ _ _ Hh); simpl;
    (eexists; split; [reflexivity |]); simpl;
    by rewrite hgetall_insert_hash.
Qed.

Lemma setPingInfo_half_written_witness :
  ∃ w',
    setPingInfo (pingID "alice") 5 65
      (World (db (ratedWorld "alice" 50 10)) [false; true] [true] [])
    = (Done (Some Redis.ConnErr), w')
    ∧ (Redis.hgetall (pingID "alice") (db w')).1 =
        if true
        then <["blockTime" := GoNum.Itoa 5]> (rateRecord 50 10)
        else <["lastPingTime" := GoNum.Itoa 65]> (rateRecord 50 10).
Proof.
  apply (setPingInfo_half_written (pingID "alice") 5 65 (rateRecord 50 10)
           true []
           (World (db (ratedWorld "alice" 50 10)) [false; true] [true] []));
    reflexivity.
Defined.

(** ** What a ping keeps *)

Section preserved.
Context (P : world → world → Prop) (username : string).
Hypothesis P_same : ∀ w w', db w' = db w → P w w'.
Hypothesis P_trans : ∀ w1 w2 w3, P w1 w2 → P w2 w3 → P w1 w3.
Hypothesis P_hset : ∀ w w' f v,
  db w' = (Redis.hset (pingID username) f v (db w)).2 → P w w'.
Hypothesis P_zadd : ∀ w w' s,
  db w' = (Redis.zadd RedisTopPingKey s username (db w)).2 → P w w'.
Hypothesis P_pfadd : ∀ w w',
  db w' = (Redis.pfadd RedisHyperLogLogKey username (db w)).2 → P w w'.

Lemma preserves_ret {A} (a : A) : preserves P (ret a).
Proof. intros w o w' [= <- <-]. by apply P_same. Qed.

Lemma preserves_panic {A} e : preserves P (@panic A e).
Proof. intros w o w' [= <- <-]. by apply P_same. Qed.

Lemma preserves_bind {A B} (m : M A) (k : A → M B) :
  preserves P m → (∀ a, preserves P (k a)) → preserves P (bind m k).
Proof.
  intros Hm Hk w o w'. unfold bind.
  destruct (m w) as [[a | e] w1] eqn:Hmw.
  - intros Hkw. eapply P_trans; [by eapply Hm | by eapply Hk].
  - intros [= <- <-]. by eapply Hm.
Qed.

Lemma preserves_read_cmd {A} c key (zero : A) sem :
  preserves P (read_cmd c key zero sem).
Proof.
  intros [d fs os tr] o w'. unfold read_cmd. simpl.
  destruct fs as [| [] fs]; intros [= <- <-]; by apply P_same.
Qed.

Lemma preserves_write_cmd c key sem :
  (∀ w w', db w' = (sem (db w)).2 → P w w') →
  preserves P (write_cmd c key sem).
Proof.
  intros Hsem [d fs os tr] o w'. unfold write_cmd. simpl.
  destruct fs as [| [] fs]; intros [= <- <-];
    (by apply Hsem) || by apply P_same.
Qed.

Lemma preserves_hset_each kvs : preserves P (hset_each (pingID username) kvs).
Proof.
  induction kvs as [| [f v] kvs IH]; simpl; [apply preserves_ret |].
  apply preserves_bind.
  - apply preserves_write_cmd. intros w w'. apply P_hset.
  - intros [e |]; [apply preserves_ret | apply IH].
Qed.

Lemma preserves_setPingInfo b t :
  preserves P (setPingInfo (pingID username) b t).
Proof.
  unfold setPingInfo. apply preserves_bind.
  - intros [d fs os tr] o w'. unfold range_order. simpl.
    destruct os; intros [= <- <-]; by apply P_same.
  - intros blockFirst. apply preserves_hset_each.
Qed.

Lemma preserves_canMakePing now : preserves P (canMakePing username now).
Proof.
  unfold canMakePing. fold (pingID username). apply preserves_bind.
  - apply preserves_read_cmd.
  - intros [pingInfo e]. destruct (decide _).
    + apply preserves_bind; [apply preserves_setPingInfo |].
      intros [e' |]; [apply preserves_panic | apply preserves_ret].
    + destruct (_ <? _); [| apply preserves_ret].
      apply preserves_bind; [apply preserves_setPingInfo |].
      intros [e' |]; [apply preserves_panic | apply preserves_ret].
Qed.

Lemma preserves_increaseCounter : preserves P (increaseCounter username).
Proof.
  unfold increaseCounter. apply preserves_bind; [apply preserves_read_cmd |].
  intros [totalPing e]. apply preserves_bind.
  - apply preserves_write_cmd. intros w w'. apply P_zadd.
  - intros [e1 |]; [apply preserves_panic |].
    apply preserves_bind.
    + apply preserves_write_cmd. intros w w'. apply P_pfadd.
    + intros [e2 |]; [apply preserves_panic | apply preserves_ret].
Qed.

Lemma preserves_pingAs now : preserves P (pingAs username now).
Proof.
  unfold pingAs. apply preserves_bind; [apply preserves_canMakePing |].
  intros []; [| apply preserves_ret].
  apply preserves_bind; [apply preserves_increaseCounter |].
  intros _. apply preserves_ret.
Qed.

End preserved.

Lemma keeps_refl d : keeps d d.
Proof. intros k v Hk. by exists v. Qed.

Lemma keeps_trans d1 d2 d3 : keeps d1 d2 → keeps d2 d3 → keeps d1 d3.
Proof.
  intros H12 H23 k v Hk.
  destruct (H12 k v Hk) as (v2 & Hk2 & Hkind2 & Hs2).
  destruct (H23 k v2 Hk2) as (v3 & Hk3 & Hkind3 & Hs3).
  exists v3. split; [done |]. split; [congruence |].
  intros Hstr. rewrite <- (Hs2 Hstr). apply Hs3. congruence.
Qed.

(** Every write the handlers issue checks the type of the key first. *)
Lemma keeps_insert_same_kind d key v v' :
  d !! key = Some v → kind_of v' = kind_of v → kind_of v ≠ KString →
  keeps d (<[key := v']> d).
Proof.
  intros Hkey Hkind Hns k v0 Hk. destruct (decide (k = key)) as [-> | Hne].
  - rewrite lookup_insert_eq. exists v'. simplify_eq. by repeat split.
  - rewrite lookup_insert_ne by done. by exists v0.
Qed.

Lemma keeps_insert_fresh d key v' : d !! key = None → keeps d (<[key := v']> d).
Proof.
  intros Hkey k v0 Hk. destruct (decide (k = key)) as [-> | Hne]; [congruence |].
  rewrite lookup_insert_ne by done. by exists v0.
Qed.

Lemma keeps_hset key f v d : keeps d (Redis.hset key f v d).2.
Proof.
  unfold Redis.hset. destruct (d !! key) as [[] |] eqn:Hk; simpl;
    try apply keeps_refl.
  - by eapply keeps_insert_same_kind.
  - by apply keeps_insert_fresh.
Qed.

Lemma keeps_zadd key s m d : keeps d (Redis.zadd key s m d).2.
Proof.
  unfold Redis.zadd. destruct (d !! key) as [[] |] eqn:Hk; simpl;
    try apply keeps_refl.
  - by eapply keeps_insert_same_kind.
  - by apply keeps_insert_fresh.
Qed.

Lemma keeps_pfadd key el d : keeps d (Redis.pfadd key el d).2.
Proof.
  unfold Redis.pfadd. destruct (d !! key) as [[] |] eqn:Hk; simpl;
    try apply keeps_refl.
  - by eapply keeps_insert_same_kind.
  - by apply keeps_insert_fresh.
Qed.

Lemma pingAs_keeps username now w :
  keeps (db w) (db (pingAs username now w).2).
Proof.
  destruct (pingAs username now w) as [o w'] eqn:Hrun.
  revert Hrun.
  apply (preserves_pingAs (λ w w', keeps (db w) (db w')) username).
  - intros w1 w2 ->. apply keeps_refl.
  - intros w1 w2 w3. apply keeps_trans.
  - intros w1 w2 f v ->. apply keeps_hset.
  - intros w1 w2 s ->. apply keeps_zadd.
  - intros w1 w2 ->. apply keeps_pfadd.
Qed.

Lemma no_new_string_insert d key v :
  kind_of v ≠ KString → no_new_string d (<[key := v]> d).
Proof.
  intros Hv k u. destruct (decide (k = key)) as [-> | Hne].
  - rewrite lookup_insert_eq. intros [= ->]. by destruct Hv.
  - by rewrite lookup_insert_ne.
Qed.

Lemma no_new_string_hset key f v d : no_new_string d (Redis.hset key f v d).2.
Proof.
  unfold Redis.hset. destruct (d !! key) as [[] |]; simpl;
    (by apply no_new_string_insert) || by intros k u.
Qed.

Lemma no_new_string_zadd key sc m d : no_new_string d (Redis.zadd key sc m d).2.
Proof.
  unfold Redis.zadd. destruct (d !! key) as [[] |]; simpl;
    (by apply no_new_string_insert) || by intros k u.
Qed.

Lemma no_new_string_pfadd key el d : no_new_string d (Redis.pfadd key el d).2.
Proof.
  unfold Redis.pfadd. destruct (d !! key) as [[] |]; simpl;
    (by apply no_new_string_insert) || by intros k u.
Qed.

Lemma pingAs_no_new_string username now w :
  no_new_string (db w) (db (pingAs username now w).2).
Proof.
  destruct (pingAs username now w) as [o w'] eqn:Hrun.
  revert Hrun.
  apply (preserves_pingAs (λ w w', no_new_string (db w) (db w')) username).
  - intros w1 w2 -> k u. done.
  - intros w1 w2 w3 H12 H23 k u Hk. by apply H12, H23.
  - intros w1 w2 f v ->. apply no_new_string_hset.
  - intros w1 w2 sc ->. apply no_new_string_zadd.
  - intros w1 w2 ->. apply no_new_string_pfadd.
Qed.

(** The sessions are read off the strings written by SET. *)
Lemma session_ext d d' sessionID :
  (∀ u, d' !! sessionID = Some (Redis.VString u)
        ↔ d !! sessionID = Some (Redis.VString u)) →
  session d' sessionID = session d sessionID.
Proof.
  unfold session. intros Hiff.
  destruct (d !! sessionID) as [[u | | |] |],
           (d' !! sessionID) as [[u' | | |] |];
    try done;
    try (by pose proof (proj1 (Hiff u') eq_refl));
    try (by pose proof (proj2 (Hiff u) eq_refl)).
  by pose proof (proj2 (Hiff u) eq_refl) as [= ->].
Qed.

Lemma live_lookup clock s key v :
  live clock s !! key = Some v
  ↔ content s !! key = Some v ∧ alive clock s key = true.
Proof. unfold live. by rewrite map_lookup_filter_Some. Qed.

(** Past the start of a handler, a key is alive in the store it leaves
    exactly when it was alive at the start and still is. *)
Lemma alive_settle clock clock' s d key :
  clock <= clock' →
  alive clock' (settle clock s d) key = true
  ∧ alive clock s key = true
  ↔ alive clock' s key = true.
Proof.
  intros Hle. unfold alive, settle. simpl.
  destruct (deadline s !! key) as [t |] eqn:Ht.
  - destruct (decide (clock <= t)) as [Hct | Hct].
    + rewrite (proj2 (map_lookup_filter_Some _ _ key t)) by done.
      rewrite !Z.leb_le. lia.
    + rewrite (proj2 (map_lookup_filter_None _ _ key)); [rewrite !Z.leb_le; lia |].
      right. intros t' Ht'. simplify_eq. done.
  - rewrite (proj2 (map_lookup_filter_None _ _ key)) by (by left). done.
Qed.

(** X8.  No command of a ping removes a key, changes the type of the
    value under a key, or changes or makes a string written by SET,
    whoever pings, whenever, and whatever the store does.  So a ping
    leaves the sessions as they are: the keyspace it leaves binds the
    tokens it found bound, to the same callers, and no others; and at every
    later reading of the store's clock the sessions of the store are those
    it would hold without the ping.  A session ends by its expiry, not by
    a ping. *)
Theorem ping_keeps_sessions (cookie : option string) (now : Z) (w : world) :
  keeps (db w) (db (handlePing cookie now w).2)
  ∧ (∀ sessionID,
       session (db (handlePing cookie now w).2) sessionID
       = session (db w) sessionID)
  ∧ (∀ s clock clock' sessionID,
       db w = live clock s → clock <= clock' →
       session (live clock' (settle clock s (db (handlePing cookie now w).2)))
               sessionID
       = session (live clock' s) sessionID).
Proof.
  assert (Hboth : keeps (db w) (db (handlePing cookie now w).2)
                  ∧ no_new_string (db w) (db (handlePing cookie now w).2)).
  { unfold handlePing, bind.
    destruct (sessionGate_runs cookie w) as (who & evs & -> & _).
    destruct who as [u |]; [| split; [apply keeps_refl | by intros k u]].
    set (w1 := World (db w) _ _ _).
    change (db w) with (db w1).
    split; [apply pingAs_keeps | apply pingAs_no_new_string]. }
  destruct Hboth as [Hkeeps Hnew].
  assert (Hstr : ∀ k u,
            db (handlePing cookie now w).2 !! k = Some (Redis.VString u)
            ↔ db w !! k = Some (Redis.VString u)).
  { intros k u. split; [apply Hnew |]. intros Hk.
    destruct (Hkeeps _ _ Hk) as (v' & Hk' & _ & Heq).
    by rewrite Hk', (Heq eq_refl). }
  split; [done |]. split.
  - intros sid. by apply session_ext.
  - intros s clock clock' sid Hdb Hle. apply session_ext. intros u.
    rewrite !live_lookup. simpl. rewrite Hstr, Hdb, live_lookup.
    pose proof (alive_settle clock clock' s
                  (db (handlePing cookie now w).2) sid Hle) as Halive.
    tauto.
Qed.

Lemma pingID_inj u u' : pingID u = pingID u' → u = u'.
Proof. unfold pingID. intros H. cbn in H. by injection H. Qed.

Lemma rateHash_same d d' u :
  d' !! pingID u = d !! pingID u → rateHash d' u = rateHash d u.
Proof. unfold rateHash, Redis.hgetall. by intros ->. Qed.

Lemma sketch_same d d' :
  d' !! RedisHyperLogLogKey = d !! RedisHyperLogLogKey → sketch d' = sketch d.
Proof. unfold sketch. by intros ->. Qed.

Lemma apart_from_same username w w' : db w' = db w → apart_from username w w'.
Proof.
  unfold apart_from. intros ->.
  split; [done |]. split; [done |]. split; [done |]. reflexivity.
Qed.

Lemma apart_from_trans username w1 w2 w3 :
  apart_from username w1 w2 → apart_from username w2 w3 →
  apart_from username w1 w3.
Proof.
  intros (Hk1 & Hs1 & Hr1 & Hsk1) (Hk2 & Hs2 & Hr2 & Hsk2).
  split; [| split; [| split]].
  - intros k H1 H2 H3. by rewrite Hk2, Hk1.
  - intros u Hu. by rewrite Hs2, Hs1.
  - intros u Hu. by rewrite Hr2, Hr1.
  - by etrans.
Qed.

Lemma apart_from_hset username w w' f v :
  db w' = (Redis.hset (pingID username) f v (db w)).2 →
  apart_from username w w'.
Proof.
  intros Hdb.
  assert (Hother : ∀ k, k ≠ pingID username → db w' !! k = db w !! k).
  { intros k Hk. rewrite Hdb. unfold Redis.hset.
    repeat case_match; simpl; by rewrite ?lookup_insert_ne. }
  split; [| split; [| split]].
  - intros k H1 _ _. by apply Hother.
  - intros u _. apply score_same_board, Hother.
    apply not_eq_sym, pingID_not_board.
  - intros u Hu. apply rateHash_same, Hother.
    intros Heq. by apply pingID_inj in Heq.
  - rewrite (sketch_same (db w) (db w')); [done |].
    apply Hother, not_eq_sym, pingID_not_sketch.
Qed.

Lemma apart_from_zadd username w w' s :
  db w' = (Redis.zadd RedisTopPingKey s username (db w)).2 →
  apart_from username w w'.
Proof.
  intros Hdb.
  assert (Hother : ∀ k, k ≠ RedisTopPingKey → db w' !! k = db w !! k).
  { intros k Hk. rewrite Hdb. unfold Redis.zadd.
    repeat case_match; simpl; by rewrite ?lookup_insert_ne. }
  split; [| split; [| split]].
  - intros k _ H2 _. by apply Hother.
  - intros u Hu. rewrite Hdb. unfold score, Redis.zscore, Redis.zadd.
    destruct (db w !! RedisTopPingKey) as [[] |] eqn:Hb; simpl;
      rewrite ?Hb, ?lookup_insert_eq; try done.
    + by rewrite lookup_insert_ne.
    + by rewrite lookup_singleton_ne.
  - intros u _. apply rateHash_same, Hother, pingID_not_board.
  - rewrite (sketch_same (db w) (db w')); [done |].
    apply Hother, not_eq_sym, board_not_sketch.
Qed.

Lemma apart_from_pfadd username w w' :
  db w' = (Redis.pfadd RedisHyperLogLogKey username (db w)).2 →
  apart_from username w w'.
Proof.
  intros Hdb.
  assert (Hother : ∀ k, k ≠ RedisHyperLogLogKey → db w' !! k = db w !! k).
  { intros k Hk. rewrite Hdb. unfold Redis.pfadd.
    repeat case_match; simpl; by rewrite ?lookup_insert_ne. }
  split; [| split; [| split]].
  - intros k _ _ H3. by apply Hother.
  - intros u _. apply score_same_board, Hother, board_not_sketch.
  - intros u _. apply rateHash_same, Hother, pingID_not_sketch.
  - rewrite Hdb. unfold sketch, Redis.pfadd.
    destruct (db w !! RedisHyperLogLogKey) as [[] |] eqn:Hs; simpl;
      rewrite ?Hs, ?lookup_insert_eq; try done.
    apply union_subseteq_r.
Qed.

Lemma pingAs_apart_from username now w :
  apart_from username w (pingAs username now w).2.
Proof.
  destruct (pingAs username now w) as [o w'] eqn:Hrun.
  revert Hrun.
  apply (preserves_pingAs (apart_from username) username).
  - apply apart_from_same.
  - apply apart_from_trans.
  - intros w1 w2 f v. apply apart_from_hset.
  - intros w1 w2 s. apply apart_from_zadd.
  - intros w1 w2. apply apart_from_pfadd.
Qed.

(** X9.  Callers do not get in each other's way: whatever the store does,
    a ping by one caller leaves every other caller's rate state and score
    as they were, leaves every key but the caller's rate state, the
    leaderboard and the sketch as it was, and removes nobody from the
    sketch.  A request that the gate turns away changes nothing at all. *)
Theorem pings_are_independent (cookie : option string) (now : Z) (w : world) :
  match (sessionGate cookie w).1 with
  | Done (Some username) =>
      apart_from username w (handlePing cookie now w).2
  | _ => db (handlePing cookie now w).2 = db w
  end.
Proof.
  unfold handlePing, bind.
  destruct (sessionGate_runs cookie w) as (who & evs & -> & _). simpl.
  destruct who as [u |]; [| done].
  set (w1 := World (db w) _ _ _).
  eapply apart_from_trans; [| apply pingAs_apart_from].
  by apply apart_from_same.
Qed.

Example bob_unmoved_by_alice :
  rateHash (db (serve [("alice", 70); ("alice", 71)]
                  (ratedWorld "bob" 50 10)).2) "bob"
  = rateRecord 50 10.
Proof. vm_compute. reflexivity. Qed.

(** ** More on the readers *)

(** X10.  The count is of callers, not of calls: on a quiet store with the
    leaderboard and sketch keys in order, after the usage recorder has run
    for a list of callers the count handler answers the number of distinct
    callers among those recorded before and those of the list, however
    often each occurs; the count never goes down, and it stays as it was
    when everybody on the list had been recorded before. *)
Theorem count_ignores_repeats (usernames : list string) (w : world) :
  quiet w → board_ok (db w) → sketch_ok (db w) →
  ∃ w',
    recordAll usernames w = (Done tt, w')
    ∧ (handleCount w').1 =
        Done (NumberOfUsers
                (Z.of_nat (size (list_to_set usernames ∪ sketch (db w)))))
    ∧ (size (sketch (db w)) ≤ size (list_to_set usernames ∪ sketch (db w)))%nat
    ∧ (Forall (λ u, u ∈ sketch (db w)) usernames →
       (handleCount w').1 = (handleCount w).1).
Proof.
  destruct w as [d fs os tr]. unfold quiet. simpl. intros -> Hb Hsk.
  destruct (recordAll_quiet usernames d os tr Hb Hsk)
    as (d' & evs & Hrec & Hsk' & Hs').
  eexists. split; [exact Hrec |].
  destruct (handleCount_quiet d' os (evs ++ tr) Hsk') as (tr' & Hcount).
  rewrite Hcount. simpl. rewrite Hs'. split; [done |]. split.
  - apply subseteq_size, union_subseteq_r.
  - intros Hall.
    destruct (handleCount_quiet d os tr Hsk) as (tr0 & ->). simpl.
    assert (list_to_set usernames ∪ sketch d = sketch d) as ->; [| done].
    apply subseteq_union_1_L.
    intros u Hu%elem_of_list_to_set. by eapply Forall_forall in Hall.
Qed.

Lemma count_ignores_repeats_witness :
  ∃ w',
    recordAll ["alice"; "bob"; "alice"; "alice"] freshWorld = (Done tt, w')
    ∧ (handleCount w').1 =
        Done (NumberOfUsers
                (Z.of_nat (size (list_to_set ["alice"; "bob"; "alice"; "alice"]
                                 ∪ sketch (db freshWorld)))))
    ∧ (size (sketch (db freshWorld))
       ≤ size (list_to_set ["alice"; "bob"; "alice"; "alice"]
               ∪ sketch (db freshWorld)))%nat
    ∧ (Forall (λ u, u ∈ sketch (db freshWorld))
              ["alice"; "bob"; "alice"; "alice"] →
       (handleCount w').1 = (handleCount freshWorld).1).
Proof.
  apply (count_ignores_repeats ["alice"; "bob"; "alice"; "alice"] freshWorld);
    try reflexivity; exact I.
Defined.

Example count_two_callers :
  (handleCount (recordAll ["alice"; "bob"; "alice"; "alice"] freshWorld).2).1
  = Done (NumberOfUsers 2).
Proof. vm_compute. reflexivity. Qed.

(** X12.  [handleCount] reads and never writes: the store is as it was in
    every case.  It answers the size of the sketch, 0 when there is none;
    and where [handleTop] answers a 500 it panics: exactly when the PFCOUNT
    fails, because the round trip is lost or the key holds no sketch. *)
Theorem handleCount_reads_or_panics (w : world) :
  ∃ o w',
    handleCount w = (o, w')
    ∧ db w' = db w
    ∧ match o with
      | Done r => r = NumberOfUsers (Z.of_nat (size (sketch (db w))))
                  ∧ head (faults w) ≠ Some true ∧ sketch_ok (db w)
      | Panicked e =>
          (head (faults w) = Some true ∧ e = Redis.ConnErr)
          ∨ (head (faults w) ≠ Some true ∧ ¬ sketch_ok (db w)
             ∧ e = Redis.WrongType)
      end.
Proof.
  unfold handleCount, bind, redisClient_PFCount, read_cmd, panic, ret.
  destruct w as [d fs os tr]. simpl.
  assert (Hsem : match Redis.pfcount RedisHyperLogLogKey d with
                 | (n, None) => n = Z.of_nat (size (sketch d)) ∧ sketch_ok d
                 | (_, Some e) => ¬ sketch_ok d ∧ e = Redis.WrongType
                 end).
  { unfold Redis.pfcount, sketch, sketch_ok.
    destruct (d !! RedisHyperLogLogKey) as [[] |]; simpl; auto. }
  destruct fs as [| [] fs]; simpl.
  - destruct (Redis.pfcount RedisHyperLogLogKey d) as [n [e |]];
      eexists _, _; (split; [reflexivity |]); (split; [done |]); simpl.
    + right. by destruct Hsem.
    + destruct Hsem as [-> ?]. by repeat split.
  - eexists _, _. split; [reflexivity |]. split; [done |]. by left.
  - destruct (Redis.pfcount RedisHyperLogLogKey d) as [n [e |]];
      eexists _, _; (split; [reflexivity |]); (split; [done |]); simpl.
    + right. by destruct Hsem.
    + destruct Hsem as [-> ?]. by repeat split.
Qed.

Lemma elem_of_zrev_list z m s : (m, s) ∈ Redis.zrev_list z ↔ z !! m = Some s.
Proof.
  unfold Redis.zrev_list. rewrite merge_sort_Permutation.
  apply elem_of_map_to_list.
Qed.

Lemma NoDup_zrev_list z : NoDup (Redis.zrev_list z).*1.
Proof.
  unfold Redis.zrev_list. rewrite merge_sort_Permutation.
  apply NoDup_fst_map_to_list.
Qed.

Lemma length_zrev_list z : length (Redis.zrev_list z) = size z.
Proof.
  unfold Redis.zrev_list. rewrite merge_sort_Permutation.
  apply length_map_to_list.
Qed.

Lemma rank_range_top {A} (l : list A) k :
  1 <= k → Redis.rank_range l 0 (k - 1) = take (Z.to_nat k) l.
Proof.
  intros Hk. unfold Redis.rank_range. cbv zeta. rewrite !Z.ltb_irrefl.
  destruct (Z.ltb_spec (k - 1) 0); [lia |].
  destruct (Z.ltb_spec (k - 1) 0); [lia |]. simpl orb.
  destruct (Z.leb_spec (Z.of_nat (length l)) 0).
  - destruct l; [by rewrite take_nil | simpl in *; lia].
  - change (Z.to_nat 0) with 0%nat. rewrite drop_0, !Z.sub_0_r.
    destruct (Z.leb_spec (Z.of_nat (length l)) (k - 1)).
    + by rewrite !take_ge by lia.
    + f_equal. lia.
Qed.

(** X11.  [handleTop] answers with the top of the board: on a quiet store
    whose leaderboard key is in order its list is made of callers on the
    board with the scores they have, each caller once; it lists
    [TopPingCount] of them, or all when there are fewer; and nobody it
    leaves out has a higher score than anybody it lists. *)
Theorem handleTop_is_the_top (w : world) :
  quiet w → board_ok (db w) →
  ∃ l w',
    handleTop w = (Done (TopUsers l), w')
    ∧ (∀ m s, (m, s) ∈ l → board (db w) !! m = Some s)
    ∧ NoDup l.*1
    ∧ length l = Nat.min (Z.to_nat TopPingCount) (size (board (db w)))
    ∧ (∀ m s m' s',
         board (db w) !! m = Some s → (m, s) ∉ l → (m', s') ∈ l → s <= s').
Proof.
  destruct w as [d fs os tr]. unfold quiet. simpl. intros -> Hb.
  unfold handleTop, bind, redisClient_ZRevRangeWithScores.
  rewrite read_cmd_quiet.
  assert (Hz : Redis.zrevrange RedisTopPingKey 0 (TopPingCount - 1) d =
               (take (Z.to_nat TopPingCount) (Redis.zrev_list (board d)), None)).
  { unfold Redis.zrevrange, board, board_ok in *.
    destruct (d !! RedisTopPingKey) as [[] |]; try done.
    by rewrite rank_range_top. }
  rewrite Hz. cbv beta iota. unfold ret.
  set (n := Z.to_nat TopPingCount). set (sorted := Redis.zrev_list (board d)).
  eexists _, _. split; [reflexivity |].
  pose proof (zrev_list_sorted (board d)) as Hsorted. fold sorted in Hsorted.
  split; [| split; [| split]].
  - intros m s Hin. apply elem_of_zrev_list.
    eapply elem_of_sublist; [exact Hin | apply sublist_take].
  - rewrite fmap_take. eapply sublist_NoDup; [| apply sublist_take].
    apply NoDup_zrev_list.
  - rewrite length_take. unfold sorted. by rewrite length_zrev_list.
  - intros m s m' s' Hm Hout Hin.
    apply elem_of_zrev_list in Hm. fold sorted in Hm.
    rewrite <- (take_drop n sorted) in Hm, Hsorted.
    apply elem_of_app in Hm as [Hm | Hm]; [done |].
    apply (StronglySorted_app_1_elem_of _ _ _ _ _ Hsorted Hin Hm).
Qed.

Lemma handleTop_is_the_top_witness :
  ∃ l w',
    handleTop (faultyWorld (db (serve [("alice", 0); ("bob", 1); ("alice", 5)]
                                     freshWorld).2) [])
    = (Done (TopUsers l), w')
    ∧ l = [("alice", 2); ("bob", 1)].
Proof.
  destruct (handleTop_is_the_top
              (faultyWorld (db (serve [("alice", 0); ("bob", 1); ("alice", 5)]
                                      freshWorld).2) []))
    as (l & w' & Hrun & _); [reflexivity | vm_compute; exact I |].
  exists l, w'. split; [exact Hrun |].
  vm_compute in Hrun. by injection Hrun as <- _.
Defined.

(** ** The whole request *)

(** On a quiet store, with the caller's key free or holding a hash,
    [canMakePing] answers. *)
Lemma canMakePing_answers username now w :
  quiet w → epoch now →
  (Redis.hgetall (pingID username) (db w)).2 = None →
  ∃ ok w', canMakePing username now w = (Done ok, w').
Proof.
  intros Hq Hnow Hok.
  destruct (decide (rateHash (db w) username = ∅)) as [He0 | Hne].
  - destruct w as [d fs os tr]. unfold quiet in Hq. simpl in *. subst fs.
    unfold rateHash in He0.
    destruct (Redis.hgetall (pingID username) d) as [h e] eqn:Hh.
    simpl in *. subst h e.
    destruct (setPingInfo_quiet (pingID username) 0 now d os
                (Redis.Ev Redis.HGETALL (pingID username) None :: tr) ∅ Hh)
      as (os' & evs & Hset & _).
    unfold canMakePing, bind, redisClient_HGetAll.
    fold (pingID username). rewrite read_cmd_quiet, Hh.
    cbv beta iota. rewrite decide_True by apply map_size_empty.
    simpl. rewrite Hset. eauto.
  - destruct (canMakePing_decides username now w _ Hq Hnow eq_refl Hne)
      as (w' & Hrun & _). eauto.
Qed.

(** X13.  No 500 from a store in order: on a quiet store whose leaderboard
    and sketch keys are in order and where the key of the caller's rate
    state is free or holds a hash, [handlePing] does not panic; it answers
    401, 429 or 200, 401 exactly when the cookie is missing or empty or the
    GET of it returns no name, and leaves the store quiet and in order. *)
Theorem handlePing_answers (cookie : option string) (now : Z) (w : world) :
  quiet w → epoch now →
  board_ok (db w) → sketch_ok (db w) →
  (∀ username, letThrough (db w) cookie = Some username →
     (Redis.hgetall (pingID username) (db w)).2 = None) →
  ∃ r w',
    handlePing cookie now w = (Done r, w')
    ∧ (r = Unauthorized ∨ r = RateLimitExceeded ∨ r = PingSucceeded)
    ∧ (r = Unauthorized ↔ letThrough (db w) cookie = None)
    ∧ quiet w' ∧ board_ok (db w') ∧ sketch_ok (db w').
Proof.
  intros Hq Hnow Hb Hsk Hkey. unfold handlePing, bind.
  destruct (sessionGate_runs cookie w) as (who & evs & -> & _ & _ & Hwho).
  specialize (Hwho Hq). subst who.
  set (w1 := World (db w) _ _ _).
  assert (Hq1 : quiet w1).
  { unfold quiet in *. simpl. rewrite Hq. by destruct (length evs). }
  destruct (letThrough (db w) cookie) as [u |] eqn:Hv.
  - specialize (Hkey u eq_refl).
    destruct (canMakePing_answers u now w1 Hq1 Hnow Hkey) as (ok & w2 & Hcan).
    pose proof (canMakePing_only_at _ _ _ _ _ Hcan) as [Hfr Hq2].
    specialize (Hq2 Hq1).
    pose proof (Hfr _ (not_eq_sym (pingID_not_board u))) as Hb2.
    pose proof (Hfr _ (not_eq_sym (pingID_not_sketch u))) as Hs2.
    assert (Hbok : board_ok (db w2)) by (unfold board_ok; by rewrite Hb2).
    assert (Hsok : sketch_ok (db w2)) by (unfold sketch_ok; by rewrite Hs2).
    unfold pingAs, bind. rewrite Hcan. destruct ok.
    + destruct w2 as [d2 fs2 os2 tr2]. unfold quiet in Hq2. simpl in *.
      subst fs2.
      destruct (increaseCounter_quiet u d2 os2 tr2 Hsok)
        as (o & d3 & evs3 & Hinc & Hsk3 & Hok3 & _).
      destruct (Hok3 Hbok) as (-> & Hb3 & _). rewrite Hinc. unfold ret.
      eexists _, _. split; [reflexivity |]. split; [auto |].
      split; [done |]. by repeat split.
    + unfold ret. eexists _, _. split; [reflexivity |]. split; [auto |].
      split; [done |]. by repeat split.
  - unfold ret. eexists _, _. split; [reflexivity |]. split; [auto |].
    split; [done |]. by repeat split.
Qed.

Lemma handlePing_answers_witness :
  ∃ r w',
    handlePing (Some "tok") 20
      (faultyWorld (<[ "tok" := Redis.VString "alice" ]>
                      (db (ratedWorld "alice" 50 10))) [])
    = (Done r, w')
    ∧ r = RateLimitExceeded.
Proof.
  destruct (handlePing_answers (Some "tok") 20
              (faultyWorld (<[ "tok" := Redis.VString "alice" ]>
                              (db (ratedWorld "alice" 50 10))) []))
    as (r & w' & Hrun & _).
  - reflexivity.
  - unfold epoch. lia.
  - vm_compute. exact I.
  - vm_compute. exact I.
  - intros u Hu. vm_compute in Hu. injection Hu as <-. reflexivity.
  - exists r, w'. split; [exact Hrun |].
    vm_compute in Hrun. by injection Hrun as <- _.
Defined.

(** ** Logging in *)

Lemma live_at clock s key :
  live clock s !! key = if alive clock s key then content s !! key else None.
Proof.
  unfold live. rewrite map_lookup_filter.
  destruct (content s !! key) as [v |]; simpl; [| by destruct (alive _ _ _)].
  case_guard as Ha; simpl in *; [by rewrite Ha |].
  by destruct (alive clock s key).
Qed.

Lemma live_redisSet_other key value seconds t0 s clock k :
  k ≠ key →
  live clock (redisSet key value seconds t0 s) !! k = live clock s !! k.
Proof.
  intros Hk. rewrite !live_at. unfold alive, redisSet. simpl.
  by rewrite !lookup_insert_ne.
Qed.

Lemma live_redisSet_key key value seconds t0 s clock :
  live clock (redisSet key value seconds t0 s) !! key =
    if clock <=? t0 + 1000 * seconds then Some (Redis.VString value) else None.
Proof.
  rewrite live_at. unfold alive, redisSet. simpl.
  by rewrite !lookup_insert_eq.
Qed.

(** The gate on a quiet store, by what the key of the cookie holds. *)
Lemma handlePing_on_string sessionID username now d os tr :
  d !! sessionID = Some (Redis.VString username) →
  ∃ w1,
    db w1 = d ∧ quiet w1
    ∧ handlePing (Some sessionID) now (World d [] os tr)
      = if String.eqb sessionID "" || String.eqb username ""
        then (Done Unauthorized, w1)
        else pingAs username now w1.
Proof.
  intros Hk.
  unfold handlePing, bind, sessionGate, redisClient_Get, read_cmd, bind.
  simpl. unfold Redis.get. rewrite Hk. simpl.
  destruct (String.eqb sessionID "" || String.eqb username "");
    unfold ret; eexists; (split; [| split; [| reflexivity]]); done.
Qed.

Lemma handlePing_on_free sessionID now d os tr :
  d !! sessionID = None →
  ∃ w1,
    db w1 = d
    ∧ handlePing (Some sessionID) now (World d [] os tr)
      = (Done Unauthorized, w1).
Proof.
  intros Hk.
  unfold handlePing, bind, sessionGate, redisClient_Get, read_cmd, bind.
  simpl. unfold Redis.get. rewrite Hk. simpl.
  unfold ret. eexists. split; [| reflexivity]. done.
Qed.

(** X14.  A session written by [handleLogin] is the one the gate finds,
    for [RedisExpirationTime] seconds: when the credentials are accepted
    and the SET goes through at reading [t0] of the store's clock, the
    answer carries the session id and the other keys of the store are as
    they were.  From [t0] and while the store's clock is short of [t0]
    plus 300 s, the sessions bind the session id to the user name, and on
    a quiet store a ping with that cookie is the ping of that user; unless
    the user name or the session id is empty, in which case the login is
    answered 200 all the same and every ping with the cookie 401.  Once
    the clock is past [t0] plus 300 s the session is gone and a ping with
    the cookie is answered 401. *)
Theorem login_binds_session (authID : Z) (username sessionID : string)
    (t0 : Z) (s : expiring) :
  authID ≠ 0 →
  (handleLogin authID username sessionID false t0 s).1 = LoggedIn sessionID
  ∧ (∀ clock k, k ≠ sessionID →
       live clock (handleLogin authID username sessionID false t0 s).2 !! k
       = live clock s !! k)
  ∧ (∀ clock now os tr,
       t0 <= clock < t0 + 1000 * RedisExpirationTime →
       validate (live clock (handleLogin authID username sessionID false t0 s).2)
                (Some sessionID)
       = (if String.eqb sessionID "" || String.eqb username ""
          then None else Some username)
       ∧ ∃ w1,
           db w1 = live clock (handleLogin authID username sessionID false t0 s).2
           ∧ quiet w1
           ∧ handlePing (Some sessionID) now
               (World (live clock
                         (handleLogin authID username sessionID false t0 s).2)
                      [] os tr)
             = if String.eqb sessionID "" || String.eqb username ""
               then (Done Unauthorized, w1)
               else pingAs username now w1)
  ∧ (∀ clock now os tr,
       t0 + 1000 * RedisExpirationTime < clock →
       validate (live clock (handleLogin authID username sessionID false t0 s).2)
                (Some sessionID) = None
       ∧ ∃ w1,
           db w1 = live clock (handleLogin authID username sessionID false t0 s).2
           ∧ handlePing (Some sessionID) now
               (World (live clock
                         (handleLogin authID username sessionID false t0 s).2)
                      [] os tr)
             = (Done Unauthorized, w1)).
Proof.
  intros Hid. unfold handleLogin.
  destruct (Z.eqb_spec authID 0) as [| _]; [done |]. simpl.
  split; [done |]. split; [| split].
  - intros clock k Hk. by apply live_redisSet_other.
  - intros clock now os tr Hclock.
    pose proof (live_redisSet_key sessionID username RedisExpirationTime
                  t0 s clock) as Hk.
    rewrite (proj2 (Z.leb_le _ _)) in Hk by lia.
    split.
    + unfold validate, session. rewrite Hk.
      by destruct (String.eqb sessionID ""), (String.eqb username "").
    + by apply handlePing_on_string.
  - intros clock now os tr Hclock.
    pose proof (live_redisSet_key sessionID username RedisExpirationTime
                  t0 s clock) as Hk.
    rewrite (proj2 (Z.leb_gt _ _)) in Hk by lia.
    split.
    + unfold validate, session. rewrite Hk.
      by destruct (String.eqb sessionID "").
    + by apply handlePing_on_free.
Qed.

Lemma login_binds_session_witness :
  (handleLogin 7 "alice" "tok" false 5000 (Expiring ∅ ∅)).1 = LoggedIn "tok"
  ∧ validate (live 9000 (handleLogin 7 "alice" "tok" false 5000
                           (Expiring ∅ ∅)).2) (Some "tok")
    = Some "alice"
  ∧ validate (live 305001 (handleLogin 7 "alice" "tok" false 5000
                             (Expiring ∅ ∅)).2) (Some "tok")
    = None.
Proof.
  destruct (login_binds_session 7 "alice" "tok" 5000 (Expiring ∅ ∅))
    as (Hr & _ & Hin & Hout); [lia |].
  split; [exact Hr |]. split.
  - apply (Hin 9000 0 [] []). unfold RedisExpirationTime. lia.
  - apply (Hout 305001 0 [] []). unfold RedisExpirationTime. lia.
Defined.

(** A login that is turned down leaves no trace: with credentials
    that match no row (id 0) the answer is 401, with a SET that fails it is
    500, and in both cases the store is as it was. *)
Lemma login_refused_changes_nothing (authID : Z)
    (username sessionID : string) (setFails : bool) (t0 : Z) (s : expiring) :
  authID = 0 ∨ setFails = true →
  (handleLogin authID username sessionID setFails t0 s).2 = s
  ∧ (handleLogin authID username sessionID setFails t0 s).1
    = (if authID =? 0 then WrongCredentials else LoginFailed Redis.ConnErr).
Proof.
  intros Hno. unfold handleLogin.
  destruct (Z.eqb_spec authID 0) as [| Hid]; [done |].
  destruct Hno as [| ->]; done.
Qed.

(** ** The rule of the rate limiter *)

(** X15.  The rule, in full: when a caller whose record has its last call
    at [t1] is let through at [t2], not before [t1], then at the caller's
    next call on a store in order, at [t3], the caller is let through
    exactly when [t3] is later than [t2] and more than [PingRateLimit]
    seconds later than [t1]; a call that is not let through leaves the
    store as it was. *)
Theorem allowed_iff_past_two_calls (username : string) (t1 t2 t3 : Z)
    (v1 w2 v2 : world) :
  t1 <= t2 → 0 <= t2 < 2 ^ 31 → epoch t3 →
  quiet v1 → rateHash (db v1) username ≠ ∅ →
  lastPingTime_of (rateHash (db v1) username) = t1 →
  canMakePing username t2 v1 = (Done true, w2) →
  quiet v2 → rateHash (db v2) username = rateHash (db w2) username →
  ∃ w3,
    canMakePing username t3 v2 =
      (Done (bool_decide (t2 < t3 ∧ t1 + PingRateLimit < t3)), w3)
    ∧ (¬ (t2 < t3 ∧ t1 + PingRateLimit < t3) → db w3 = db v2).
Proof.
  intros Ht1 Ht2 Ht3 Hq1 Hne1 Hl1 Hrun2 Hq2 Hv2.
  assert (He2 : epoch t2) by (unfold epoch; lia).
  destruct (canMakePing_decides username t2 v1 _ Hq1 He2 eq_refl Hne1)
    as (w2' & Hrun2' & _ & Hh2).
  rewrite Hrun2 in Hrun2'. injection Hrun2' as Hd2 <-.
  symmetry in Hd2. rewrite Hd2, Hl1 in Hh2. rewrite <- Hv2 in Hh2.
  pose proof (ParseInt_in_int32
                (field (rateHash (db v1) username) "lastPingTime")) as Hr1.
  fold (lastPingTime_of (rateHash (db v1) username)) in Hr1.
  rewrite Hl1 in Hr1. unfold GoNum.in_int32, PingRateLimit in *.
  destruct (canMakePing_decides username t3 v2 _ Hq2 Ht3 Hh2
              (pingRecord_nonempty _ _ _)) as (w3 & Hrun3 & _ & Hh3).
  rewrite blockTime_of_pingRecord, lastPingTime_of_pingRecord in Hrun3.
  rewrite (clamp32_fits t2) in Hrun3 by (unfold GoNum.in_int32; lia).
  rewrite clamp32_fits in Hrun3 by (unfold GoNum.in_int32; lia).
  exists w3.
  assert (Hiff : 0 `max` (t1 + 60 - t2) < t3 - t2 ↔ t2 < t3 ∧ t1 + 60 < t3)
    by lia.
  rewrite (bool_decide_ext _ _ Hiff) in Hrun3. split; [exact Hrun3 |].
  intros Hno. rewrite bool_decide_eq_false_2 in Hrun3 by done.
  by apply canMakePing_refusal in Hrun3 as ->.
Qed.

Lemma allowed_iff_past_two_calls_witness :
  ∃ w3,
    canMakePing "alice" 65
      (World (db (canMakePing "alice" 20 (ratedWorld "alice" 0 10)).2) [] [] [])
    = (Done (bool_decide (20 < 65 ∧ 10 + PingRateLimit < 65)), w3)
    ∧ (¬ (20 < 65 ∧ 10 + PingRateLimit < 65) →
       db w3 = db (World (db (canMakePing "alice" 20
                                (ratedWorld "alice" 0 10)).2) [] [] [])).
Proof.
  apply (allowed_iff_past_two_calls "alice" 10 20 65
           (ratedWorld "alice" 0 10)
           (canMakePing "alice" 20 (ratedWorld "alice" 0 10)).2
           (World (db (canMakePing "alice" 20 (ratedWorld "alice" 0 10)).2)
                  [] [] []));
    try (unfold epoch; lia); try reflexivity.
  vm_compute. discriminate.
Defined.
